(** * gemmi: the streaming search of [grep.cpp] and the dictionary
      validator of [include/gemmi/ddl.hpp]

    The development has three parts.  [Cif] holds the document model the
    two programs share (blocks, items, loops) together with the accessors
    of [cif.hpp] they call.  [Grep] embeds the PEGTL action set [Search]
    of [grep.cpp] as a transition function over the [Parameters] record.
    [Ddl] embeds the class [DDL] with its two type checkers.  The facts
    proved about the three follow the definitions. *)

From Stdlib Require Import ZArith Lia Ascii.
From Stdlib Require Import Floats.SpecFloat.
From stdpp Require Import base option list strings gmap pretty.

Local Open Scope Z_scope.

(** The line feed written by [printf("...\n")]. *)
Definition nl : string := String (Ascii.ascii_of_nat 10) EmptyString.

(** ** C++ [int]

    The working counters of [Parameters] are [int]s; they are kept in [Z]
    and every increment goes through the 32-bit two's complement wrap. *)
Definition INT_MAX : Z := 2147483647.

Definition int_wrap (z : Z) : Z := (z + 2 ^ 31) `mod` 2 ^ 32 - 2 ^ 31.

Definition int_incr (z : Z) : Z := int_wrap (z + 1).

(** * The document model, [cif.hpp] and [numb.hpp]

    Neither header is among the sources at hand.  The data types are
    taken from the way [ddl.hpp] reads them ([item.type], [item.tv],
    [item.loop], [item.frame], [block.items], [doc.blocks]); the
    accessors are modelled from the specification. *)
Module Cif.

(** C++ [float] and [double] values, by their IEEE 754 datum; the
    comparisons of [SpecFloat] do not depend on the format. *)
Definition float := spec_float.

(** [ItemType] with the payload of each case, and [Block]. *)
Inductive Item :=
  | Value (tv_tag tv_value : string)
  | Loop (loop_tags loop_values : list string)
  | Frame (frame : Block)
with Block :=
  | mkBlock (block_name : string) (block_items : list Item).

Definition name (b : Block) : string :=
  match b with mkBlock n _ => n end.

Definition items (b : Block) : list Item :=
  match b with mkBlock _ its => its end.

Record Document := mkDocument { blocks : list Block }.

(** The lexical functions whose bodies are in [cif.hpp] and [numb.hpp]:
    [as_string] unquotes a raw value, [is_numb] recognises the lexical
    class of numbers with an optional standard uncertainty, [as_number]
    converts to [double], and [narrow] is the conversion from [double]
    to [float] that an assignment to a [float] applies. *)
Class Lexicon := {
  as_string : string → string;
  is_numb : string → bool;
  as_number : string → float;
  narrow : float → float
}.

(** Modelled from the spec: [is_null] of [cif.hpp], which holds of the
    two null markers [?] and [.] and of nothing else. *)
Definition is_null (value : string) : bool :=
  bool_decide (value = "?") || bool_decide (value = ".").

(** Modelled from the spec: [Block::find_value] of [cif.hpp], the first
    scalar value for a tag in a block; none if the tag is absent or
    occurs inside a loop only. *)
Fixpoint find_value_in (its : list Item) (tg : string) : option string :=
  match its with
  | [] => None
  | Value t v :: rest => if decide (t = tg) then Some v else find_value_in rest tg
  | _ :: rest => find_value_in rest tg
  end.

Definition find_value (b : Block) (tg : string) : option string :=
  find_value_in (items b) tg.

(** The position of a tag among the tags of a loop. *)
Fixpoint find_tag (tags : list string) (tg : string) : option nat :=
  match tags with
  | [] => None
  | t :: rest => if decide (t = tg) then Some 0%nat else S <$> find_tag rest tg
  end.

(** The values at positions [skip], [skip + width], [skip + 2 * width],
    ... of a flat row-major sequence: one column of a table. *)
Fixpoint stride {A} (skip width : nat) (values : list A) : list A :=
  match values with
  | [] => []
  | v :: rest =>
      match skip with
      | O => v :: stride (width - 1) width rest
      | S k => stride k width rest
      end
  end.

(** Modelled from the spec: [Block::find_loop] of [cif.hpp], the values
    under a tag in the loop of the block that declares it; the empty
    sequence if no loop does. *)
Fixpoint find_loop_in (its : list Item) (tg : string) : list string :=
  match its with
  | [] => []
  | Loop tags values :: rest =>
      match find_tag tags tg with
      | Some pos => stride pos (length tags) values
      | None => find_loop_in rest tg
      end
  | _ :: rest => find_loop_in rest tg
  end.

Definition find_loop (b : Block) (tg : string) : list string :=
  find_loop_in (items b) tg.

(** A sample of the lexical functions, used to run the programs on
    concrete inputs: [as_string] strips one pair of quotes, numbers are
    the unsigned decimal integers, every other text converts to NaN, and
    narrowing leaves a value as it is. *)
Definition is_digit (c : ascii) : bool :=
  let n := Ascii.nat_of_ascii c in (48 <=? n)%nat && (n <=? 57)%nat.

Fixpoint all_digits (s : string) : bool :=
  match s with
  | EmptyString => true
  | String c rest => is_digit c && all_digits rest
  end.

Fixpoint decimal_value (acc : N) (s : string) : N :=
  match s with
  | EmptyString => acc
  | String c rest =>
      decimal_value (acc * 10 + N.of_nat (Ascii.nat_of_ascii c - 48))%N rest
  end.

Fixpoint drop_last (s : string) : string :=
  match s with
  | EmptyString => EmptyString
  | String c EmptyString => EmptyString
  | String c rest => String c (drop_last rest)
  end.

Definition sample_as_string (value : string) : string :=
  match value with
  | String c rest =>
      if is_null value then ""
      else if decide (c = "'"%char) then drop_last rest
      else value
  | EmptyString => ""
  end.

Definition sample_is_numb (value : string) : bool :=
  negb (bool_decide (value = "")) && all_digits value.

Definition sample_as_number (value : string) : float :=
  if sample_is_numb value then
    match decimal_value 0 value with
    | N0 => S754_zero false
    | Npos m => S754_finite false m 0
    end
  else S754_nan.

Definition sample_lexicon : Lexicon :=
  {| as_string := sample_as_string; is_numb := sample_is_numb;
     as_number := sample_as_number; narrow := λ x, x |}.

End Cif.

(** * The streaming search, [grep.cpp] *)
Module Grep.

(** [struct Parameters]: the options set by [main] followed by the
    working parameters the actions update. *)
Record Parameters := mkParameters {
  search_tag : string;
  max_count : Z;
  with_filename : bool;
  with_blockname : bool;
  with_tag : bool;
  summarize : bool;
  only_filenames : bool;
  inverse : bool;
  print_count : bool;
  path : string;
  block_name : string;
  match_value : bool;
  match_column : Z;
  table_width : Z;
  column : Z;
  counter : Z
}.

(** The member initialisers of [struct Parameters]. *)
Definition Parameters_default : Parameters :=
  {| search_tag := ""; max_count := 10; with_filename := false;
     with_blockname := true; with_tag := false; summarize := false;
     only_filenames := false; inverse := false; print_count := false;
     path := ""; block_name := ""; match_value := false;
     match_column := -1; table_width := 0; column := 0; counter := 0 |}.

(** Assignments to single members. *)
Definition set_search_tag (v : string) (p : Parameters) : Parameters :=
  mkParameters v (max_count p) (with_filename p) (with_blockname p)
    (with_tag p) (summarize p) (only_filenames p) (inverse p) (print_count p)
    (path p) (block_name p) (match_value p) (match_column p) (table_width p)
    (column p) (counter p).

Definition set_max_count (v : Z) (p : Parameters) : Parameters :=
  mkParameters (search_tag p) v (with_filename p) (with_blockname p)
    (with_tag p) (summarize p) (only_filenames p) (inverse p) (print_count p)
    (path p) (block_name p) (match_value p) (match_column p) (table_width p)
    (column p) (counter p).

Definition set_path (v : string) (p : Parameters) : Parameters :=
  mkParameters (search_tag p) (max_count p) (with_filename p)
    (with_blockname p) (with_tag p) (summarize p) (only_filenames p)
    (inverse p) (print_count p) v (block_name p) (match_value p)
    (match_column p) (table_width p) (column p) (counter p).

Definition set_block_name (v : string) (p : Parameters) : Parameters :=
  mkParameters (search_tag p) (max_count p) (with_filename p)
    (with_blockname p) (with_tag p) (summarize p) (only_filenames p)
    (inverse p) (print_count p) (path p) v (match_value p) (match_column p)
    (table_width p) (column p) (counter p).

Definition set_match_value (v : bool) (p : Parameters) : Parameters :=
  mkParameters (search_tag p) (max_count p) (with_filename p)
    (with_blockname p) (with_tag p) (summarize p) (only_filenames p)
    (inverse p) (print_count p) (path p) (block_name p) v (match_column p)
    (table_width p) (column p) (counter p).

Definition set_match_column (v : Z) (p : Parameters) : Parameters :=
  mkParameters (search_tag p) (max_count p) (with_filename p)
    (with_blockname p) (with_tag p) (summarize p) (only_filenames p)
    (inverse p) (print_count p) (path p) (block_name p) (match_value p) v
    (table_width p) (column p) (counter p).

Definition set_table_width (v : Z) (p : Parameters) : Parameters :=
  mkParameters (search_tag p) (max_count p) (with_filename p)
    (with_blockname p) (with_tag p) (summarize p) (only_filenames p)
    (inverse p) (print_count p) (path p) (block_name p) (match_value p)
    (match_column p) v (column p) (counter p).

Definition set_column (v : Z) (p : Parameters) : Parameters :=
  mkParameters (search_tag p) (max_count p) (with_filename p)
    (with_blockname p) (with_tag p) (summarize p) (only_filenames p)
    (inverse p) (print_count p) (path p) (block_name p) (match_value p)
    (match_column p) (table_width p) v (counter p).

Definition set_counter (v : Z) (p : Parameters) : Parameters :=
  mkParameters (search_tag p) (max_count p) (with_filename p)
    (with_blockname p) (with_tag p) (summarize p) (only_filenames p)
    (inverse p) (print_count p) (path p) (block_name p) (match_value p)
    (match_column p) (table_width p) (column p) v.

(** Standard output is kept as the list of lines written so far: one
    entry for each call of [process_match] or [finish_processing] that
    prints, holding the concatenation of its [printf]s. *)
Definition Stdout := list string.

(** The state an action works on: the parameters passed by reference and
    the output stream. *)
Definition State : Type := Parameters * Stdout.

(** The prefixes [printf("%s: ", ...)] that both printing functions
    share, and the text of a line. *)
Definition filename_prefix (par : Parameters) : string :=
  if with_filename par then path par +:+ ": " else "".

Definition blockname_prefix (par : Parameters) : string :=
  if with_blockname par then block_name par +:+ ": " else "".

Definition tag_prefix (par : Parameters) : string :=
  if with_tag par then "[" +:+ search_tag par +:+ "] " else "".

Definition match_line (par : Parameters) (value : string) : string :=
  filename_prefix par +:+ blockname_prefix par +:+ tag_prefix par
    +:+ " " +:+ value +:+ nl.

Definition count_line (par : Parameters) : string :=
  filename_prefix par +:+ blockname_prefix par
    +:+ " " +:+ pretty (counter par) +:+ nl.

(** [process_match]: with [print_count] the match is only counted,
    otherwise one line is printed.  The two tests of [only_filenames]
    and [max_count] of the source are commented out there. *)
Definition process_match (value : string) (st : State) : State :=
  let (par, out) := st in
  if print_count par then (set_counter (int_incr (counter par)) par, out)
  else (par, out ++ [match_line par value]).

(** [finish_processing]: with [print_count] the count is printed and
    the counter cleared. *)
Definition finish_processing (st : State) : State :=
  let (par, out) := st in
  if print_count par then (set_counter 0 par, out ++ [count_line par])
  else (par, out).

(** The grammar productions that have a [Search] specialisation, each
    with the text it matched ([in.string()]); every other rule of the
    grammar falls to [pegtl::nothing]. *)
Inductive Rule :=
  | datablockname (s : string)
  | str_global
  | tag (s : string)
  | value (s : string)
  | str_loop
  | loop_tag (s : string)
  | loop_end
  | loop_value (s : string)
  | nothing.

Section Search.

Context `{!Cif.Lexicon}.

(** [Search<Rule>::apply]. *)
Definition Search (r : Rule) (st : State) : State :=
  let (p, out) := st in
  match r with
  | datablockname s => (set_block_name s p, out)
  | str_global => (set_block_name "global_" p, out)
  | tag s =>
      if decide (search_tag p = s) then (set_match_value true p, out)
      else (p, out)
  | value s =>
      if match_value p then
        let (p', out') := finish_processing (process_match (Cif.as_string s) (p, out)) in
        (set_match_value false p', out')
      else (p, out)
  | str_loop => (set_table_width 0 p, out)
  | loop_tag s =>
      let p1 :=
        if decide (search_tag p = s)
        then set_column 0 (set_match_column (table_width p) p)
        else p in
      (set_table_width (int_incr (table_width p1)) p1, out)
  | loop_end =>
      if decide (match_column p ≠ -1) then
        let (p', out') := finish_processing (p, out) in
        (set_match_column (-1) p', out')
      else (p, out)
  | loop_value s =>
      if decide (match_column p ≠ -1) then
        let (p1, out1) :=
          if decide (column p = match_column p)
          then process_match (Cif.as_string s) (p, out)
          else (p, out) in
        let p2 := set_column (int_incr (column p1)) p1 in
        let p3 := if decide (column p2 = table_width p2)
                  then set_column 0 p2 else p2 in
        (p3, out1)
      else (p, out)
  | nothing => (p, out)
  end.

(** [pegtl::parse<rules::file, Search, cif::Errors>(in, par)] on an input
    the grammar accepts: the actions run in the order in which the
    productions match. *)
Definition parse (productions : list Rule) (st : State) : State :=
  foldl (λ s r, Search r s) st productions.

(** [grep_file]: the tag and the path are stored, then the file is
    parsed. *)
Definition grep_file (tg : string) (pth : string) (productions : list Rule)
    (st : State) : State :=
  let (par, out) := st in
  parse productions (set_path pth (set_search_tag tg par), out).

(** The loop of [main] over the files named on the command line, all of
    them sharing the one [Parameters] object. *)
Definition grep_files (tg : string) (files : list (string * list Rule))
    (st : State) : State :=
  foldl (λ s f, grep_file tg f.1 f.2 s) st files.

(** The productions of a file fragment made of one loop: the [loop_]
    keyword, the tags, the values in row-major order, the end of the
    loop. *)
Definition loop_productions (tags values : list string) : list Rule :=
  str_loop :: (loop_tag <$> tags) ++ (loop_value <$> values) ++ [loop_end].

(** [process_match] called on each of a sequence of raw values in turn,
    the way the [loop_value] action calls it. *)
Definition process_matches (values : list string) (st : State) : State :=
  foldl (λ s v, process_match (Cif.as_string v) s) st values.

End Search.

(** The three loop counters assigned together. *)
Definition set_loop_state (mc tw col : Z) (p : Parameters) : Parameters :=
  set_match_column mc (set_table_width tw (set_column col p)).

(** Standing at column [j] of a table of width [w], the number of
    values to pass over before the next value of column [c]. *)
Definition next_match (c j w : nat) : nat :=
  if decide (j ≤ c)%nat then (c - j)%nat else (w - j + c)%nat.

(** The column reached from column [j] after one more value. *)
Definition next_column (j w : nat) : nat :=
  if decide (S j = w) then 0%nat else S j.

(** Reduce the projections of [Parameters] applied to assignments. *)
Ltac fields :=
  cbn [search_tag max_count with_filename with_blockname with_tag summarize
       only_filenames inverse print_count path block_name match_value
       match_column table_width column counter
       set_search_tag set_max_count set_path set_block_name set_match_value
       set_match_column set_table_width set_column set_counter fst snd].

(** States used to run the actions on concrete inputs: a search for
    [_atom_site.label] with the default options, and the same in
    counting mode. *)
Definition sample_parameters : Parameters :=
  set_search_tag "_atom_site.label" Parameters_default.

Definition sample_counting : Parameters :=
  mkParameters "_atom_site.label" 10 true true false false false false true
    "1abc.cif" "1ABC" false (-1) 0 0 0.

Definition sample_tags : list string :=
  ["_atom_site.id"; "_atom_site.type"; "_atom_site.label"; "_atom_site.x";
   "_atom_site.y"].

Definition sample_values : list string :=
  ["1"; "N"; "N1"; "0.1"; "0.2";
   "2"; "C"; "'CA'"; "0.3"; "0.4";
   "3"; "O"; "O1"; "0.5"; "0.6"].

End Grep.

(** * The dictionary validator, [include/gemmi/ddl.hpp] *)
Module Ddl.
Import Cif.

(** ** [std::string] and [std::unordered_map] operations *)

(** [s.find(c)]: the position of the first [c], [None] for [npos]. *)
Fixpoint str_find (c : ascii) (s : string) : option nat :=
  match s with
  | EmptyString => None
  | String a rest => if decide (a = c) then Some 0%nat else S <$> str_find c rest
  end.

(** [s.substr(0, n)] and [s.substr(n)] for [n] within the string. *)
Fixpoint str_take (n : nat) (s : string) : string :=
  match n, s with
  | S k, String a rest => String a (str_take k rest)
  | _, _ => EmptyString
  end.

Fixpoint str_drop (n : nat) (s : string) : string :=
  match n, s with
  | S k, String _ rest => str_drop k rest
  | _, _ => s
  end.

(** [s[s.size() - 1] = c] on a string that is not empty. *)
Fixpoint set_last (c : ascii) (s : string) : string :=
  match s with
  | EmptyString => EmptyString
  | String _ EmptyString => String c EmptyString
  | String a rest => String a (set_last c rest)
  end.

(** [m.emplace(k, v)]: the pair is inserted only when the map holds no
    element with key [k]; an existing element is left as it is. *)
Definition emplace {V} (k : string) (v : V) (m : gmap string V) : gmap string V :=
  match m !! k with
  | Some _ => m
  | None => <[k := v]> m
  end.

(** [if (msg) *msg = text]: an assignment through a pointer that may be
    null ([None]). *)
Definition assign (msg : option string) (text : string) : option string :=
  match msg with
  | Some _ => Some text
  | None => None
  end.

(** ** [class DDL] *)

(** The index stores pointers into the dictionary document; they are
    represented by the blocks they point to, which the validator never
    changes. *)
Record DDL := mkDDL {
  version_ : Z;
  ddl_ : Document;
  name_index_ : gmap string Block;
  dict_name_ : string;
  dict_version_ : string;
  sep_ : string
}.

(** A default-constructed [DDL]; [version_] has no initialiser and
    holds whatever [garbage] the memory held. *)
Definition DDL_default (garbage : Z) : DDL :=
  mkDDL garbage (mkDocument []) ∅ "" "" "".

Definition set_name_index (m : gmap string Block) (d : DDL) : DDL :=
  mkDDL (version_ d) (ddl_ d) m (dict_name_ d) (dict_version_ d) (sep_ d).

Definition set_dict_name (v : string) (d : DDL) : DDL :=
  mkDDL (version_ d) (ddl_ d) (name_index_ d) v (dict_version_ d) (sep_ d).

Definition set_dict_version (v : string) (d : DDL) : DDL :=
  mkDDL (version_ d) (ddl_ d) (name_index_ d) (dict_name_ d) v (sep_ d).

Section Dictionary.

Context `{!Lexicon}.

(** [DDL::find]. *)
Definition find (d : DDL) (nm : string) : option Block :=
  name_index_ d !! nm.

(** The names under which [add_to_index] files a block: the scalar
    value of [name_tag] when there is one, else the looped values. *)
Definition names_of (b : Block) (name_tag : string) : list string :=
  match find_value b name_tag with
  | Some nm => [as_string nm]
  | None => as_string <$> find_loop b name_tag
  end.

(** [DDL::add_to_index]. *)
Definition add_to_index (b : Block) (name_tag : string) (d : DDL) : DDL :=
  match find_value b name_tag with
  | Some nm => set_name_index (emplace (as_string nm) b (name_index_ d)) d
  | None =>
      foldl (λ d' lname,
               set_name_index (emplace (as_string lname) b (name_index_ d')) d')
            d (find_loop b name_tag)
  end.

(** The body of the loop of [DDL::read_ddl1], and the loop. *)
Definition read_ddl1_block (d : DDL) (b : Block) : DDL :=
  let d1 := add_to_index b "_name" d in
  if decide (name b = "on_this_dictionary") then
    let d2 := match find_value b "_dictionary_name" with
              | Some dic_name => set_dict_name (as_string dic_name) d1
              | None => d1
              end in
    match find_value b "_dictionary_version" with
    | Some dic_ver => set_dict_version (as_string dic_ver) d2
    | None => d2
    end
  else d1.

Definition read_ddl1 (d : DDL) : DDL :=
  foldl read_ddl1_block d (blocks (ddl_ d)).

(** The body of the inner loop of [DDL::read_ddl2], and the two loops. *)
Definition read_ddl2_item (d : DDL) (item : Item) : DDL :=
  match item with
  | Frame f => add_to_index f "_item.name" d
  | Value tg v =>
      if decide (tg = "_dictionary.title") then set_dict_name v d
      else if decide (tg = "_dictionary.version") then set_dict_version v d
      else d
  | Loop _ _ => d
  end.

Definition read_ddl2 (d : DDL) : DDL :=
  foldl (λ d' block, foldl read_ddl2_item d' (items block)) d (blocks (ddl_ d)).

(** [DDL::open_file]; [doc] is what [ddl_.read_file(filename)] has
    parsed from the file. *)
Definition open_file (doc : Document) (d : DDL) : DDL :=
  let version := if decide (1 < length (blocks doc))%nat then 1 else 2 in
  let sep := if decide (version = 1) then "_" else "." in
  let d1 := mkDDL version doc (name_index_ d) (dict_name_ d) (dict_version_ d) sep in
  if decide (version_ d1 = 1) then read_ddl1 d1 else read_ddl2 d1.

(** [DDL::check_audit_conform]: the loop over the blocks with its two
    early returns, then the statements after the loop. *)
Fixpoint check_audit_conform_blocks (d : DDL) (audit_conform : string)
    (bs : list Block) (msg : option string) : bool * option string :=
  match bs with
  | [] =>
      (true, assign msg ("The cif file is missing " +:+ audit_conform
                           +:+ "dict_(name|version)"))
  | b :: rest =>
      match find_value b (audit_conform +:+ "dict_name") with
      | None => check_audit_conform_blocks d audit_conform rest msg
      | Some dict_name =>
          let nm := as_string dict_name in
          if decide (nm ≠ dict_name_ d) then
            (false, assign msg ("Dictionary name mismatch: " +:+ nm +:+ " vs "
                                  +:+ dict_name_ d))
          else
            match find_value b (audit_conform +:+ "dict_version") with
            | Some dict_ver =>
                let version := as_string dict_ver in
                if decide (version ≠ dict_version_ d) then
                  (false, assign msg ("CIF conforms to " +:+ nm +:+ " ver. "
                                        +:+ version +:+ " while DDL has ver. "
                                        +:+ dict_version_ d))
                else check_audit_conform_blocks d audit_conform rest msg
            | None => check_audit_conform_blocks d audit_conform rest msg
            end
      end
  end.

Definition check_audit_conform (d : DDL) (c : Document) (msg : option string)
    : bool * option string :=
  check_audit_conform_blocks d ("_audit_conform" +:+ sep_ d) (blocks c) msg.

End Dictionary.

(** ** The type checkers *)

Inductive Trinary := Unset | Yes | No.

Global Instance Trinary_eq_dec : EqDecision Trinary.
Proof. solve_decision. Defined.

(** [x < y] on [float]s; false as soon as one side is NaN. *)
Definition float_lt (x y : float) : bool := SFltb x y.

Definition INFINITY : float := S754_infinity false.
Definition NEG_INFINITY : float := S754_infinity true.

(** The members [range_low_] and [range_high_] of both checkers have no
    initialiser: an object that was never given a range holds in them
    whatever the memory held. *)
Class Indeterminate := {
  garbage_low : float;
  garbage_high : float
}.

(** The text [validate_enumeration] builds for a value that is not in
    the enumeration [en]. *)
Definition enumeration_message (val : string) (en : list string) : string :=
  set_last "."%char
    (foldl (λ m e, m +:+ " " +:+ e +:+ ",") ("'" +:+ val +:+ "' is not one of:") en).

(** [validate_enumeration]. *)
Definition validate_enumeration `{!Lexicon} (val : string) (en : list string)
    (msg : option string) : bool * option string :=
  if bool_decide (en = []) || is_null val || bool_decide (as_string val ∈ en)
  then (true, msg)
  else (false, assign msg (enumeration_message val en)).

(** The lambda [fail] of [TypeCheckDDL1::validate_value]. *)
Definition fail (msg : option string) (t : string) : bool * option string :=
  (false, assign msg t).

(** [class TypeCheckDDL1]. *)
Module TypeCheckDDL1.

Record t := mk {
  is_list_ : Trinary;
  is_numb_ : Trinary;
  has_su_ : bool;
  has_range_ : bool;
  range_low_ : float;
  range_high_ : float;
  enumeration_ : list string
}.

Section Methods.

Context `{!Lexicon} `{!Indeterminate}.

(** The object a declaration [TypeCheckDDL1 tc;] makes. *)
Definition default : t :=
  mk Unset Unset false false garbage_low garbage_high [].

Definition set_is_list (v : Trinary) (tc : t) : t :=
  mk v (is_numb_ tc) (has_su_ tc) (has_range_ tc) (range_low_ tc)
    (range_high_ tc) (enumeration_ tc).

Definition set_is_numb (v : Trinary) (tc : t) : t :=
  mk (is_list_ tc) v (has_su_ tc) (has_range_ tc) (range_low_ tc)
    (range_high_ tc) (enumeration_ tc).

Definition set_has_su (v : bool) (tc : t) : t :=
  mk (is_list_ tc) (is_numb_ tc) v (has_range_ tc) (range_low_ tc)
    (range_high_ tc) (enumeration_ tc).

Definition set_has_range (v : bool) (tc : t) : t :=
  mk (is_list_ tc) (is_numb_ tc) (has_su_ tc) v (range_low_ tc)
    (range_high_ tc) (enumeration_ tc).

Definition set_range (low high : float) (tc : t) : t :=
  mk (is_list_ tc) (is_numb_ tc) (has_su_ tc) (has_range_ tc) low high
    (enumeration_ tc).

Definition set_enumeration (v : list string) (tc : t) : t :=
  mk (is_list_ tc) (is_numb_ tc) (has_su_ tc) (has_range_ tc) (range_low_ tc)
    (range_high_ tc) v.

(** The last statement of [from_block]: the loop over [_enumeration]. *)
Definition read_enumeration (b : Block) (tc : t) : t :=
  foldl (λ tc' e, set_enumeration (enumeration_ tc' ++ [as_string e]) tc')
        tc (find_loop b "_enumeration").

(** One bound of a range: an empty side is unbounded, any other text
    is converted by [as_number] and stored in a [float]. *)
Definition range_bound (side : string) (unbounded : float) : float :=
  if decide (side = "") then unbounded else narrow (as_number side).

(** [TypeCheckDDL1::from_block].  A range with no colon returns early:
    the bounds stay as they were and the enumeration is not read. *)
Definition from_block (b : Block) (tc : t) : t :=
  let tc1 :=
    match find_value b "_list" with
    | Some list =>
        if decide (list = "yes") then set_is_list Yes tc
        else if decide (list = "no") then set_is_list No tc
        else tc
    | None => tc
    end in
  let tc2 :=
    match find_value b "_type" with
    | Some type => set_is_numb (if decide (type = "numb") then Yes else No) tc1
    | None => tc1
    end in
  let tc3 :=
    match find_value b "_type_conditions" with
    | Some conditions =>
        set_has_su (bool_decide (conditions = "esd")
                    || bool_decide (conditions = "su")) tc2
    | None => tc2
    end in
  match find_value b "_enumeration_range" with
  | Some range =>
      let tc4 := set_has_range true tc3 in
      match str_find ":"%char range with
      | None => tc4
      | Some colon_pos =>
          let low := str_take colon_pos range in
          let high := str_drop (colon_pos + 1) range in
          read_enumeration b
            (set_range (range_bound low NEG_INFINITY)
                       (range_bound high INFINITY) tc4)
      end
  | None => read_enumeration b tc3
  end.

(** [TypeCheckDDL1::validate_value]. *)
Definition validate_value (tc : t) (value : string) (msg : option string)
    : bool * option string :=
  let enumeration_check := validate_enumeration value (enumeration_ tc) msg in
  if decide (is_numb_ tc = Yes) then
    if negb (is_null value) && negb (is_numb value) then
      fail msg "expected number"
    else if has_range_ tc then
      let x := narrow (as_number value) in
      if float_lt x (range_low_ tc) || float_lt (range_high_ tc) x then
        fail msg ("value out of expected range: " +:+ value)
      else enumeration_check
    else enumeration_check
  else enumeration_check.

(** [TypeCheckDDL1::is_list]. *)
Definition is_list (tc : t) : Trinary := is_list_ tc.

End Methods.

End TypeCheckDDL1.

(** [class TypeCheckDDL2]. *)
Module TypeCheckDDL2.

Record t := mk {
  is_numb_ : Trinary;
  has_range_ : bool;
  range_low_ : float;
  range_high_ : float;
  enumeration_ : list string
}.

Section Methods.

Context `{!Lexicon} `{!Indeterminate}.

(** The object a declaration [TypeCheckDDL2 tc;] makes. *)
Definition default : t := mk Unset false garbage_low garbage_high [].

(** [TypeCheckDDL2::from_block]. *)
Definition from_block (b : Block) (tc : t) : t :=
  foldl (λ tc' e,
           mk (is_numb_ tc') (has_range_ tc') (range_low_ tc') (range_high_ tc')
              (enumeration_ tc' ++ [as_string e]))
        tc (find_loop b "_item_enumeration.value").

(** [TypeCheckDDL2::validate_value]. *)
Definition validate_value (tc : t) (value : string) (msg : option string)
    : bool * option string :=
  validate_enumeration value (enumeration_ tc) msg.

End Methods.

End TypeCheckDDL2.

(** ** [DDL::validate] *)

(** What one call of the reporting hook carries: the originating
    block, the item and the message. *)
Record Failure := mkFailure {
  failure_block : Block;
  failure_item : Item;
  failure_message : string
}.

(** The variables [DDL::validate] works on: its local [msg], the list
    behind the pointer [unknown_tags] ([None] when the pointer is null)
    and the failures handed to the reporting hook so far. *)
Record Run := mkRun {
  msg : string;
  unknown_tags : option (list string);
  report : list Failure
}.

(** Modelled from the spec: [cif_fail] of [cif.hpp], the single
    failure-reporting hook.  It takes the document, the block, the item
    and a message, records the failure and returns to the validator,
    which goes on with the next check. *)
Definition cif_fail (c : Document) (b : Block) (item : Item) (s : string)
    (st : Run) : Run :=
  mkRun (msg st) (unknown_tags st) (report st ++ [mkFailure b item s]).

(** [if (unknown_tags) unknown_tags->emplace_back(tag);] *)
Definition note_unknown (tg : string) (st : Run) : Run :=
  mkRun (msg st) ((λ l, l ++ [tg]) <$> unknown_tags st) (report st).

(** The statement
    [if (!tc.validate_value(value, &msg)) cif_fail(c, b, item, msg);]
    which [validate] has once for each dialect and position, for a
    checker whose [validate_value] is [check]. *)
Definition validate_and_report
    (check : string → option string → bool * option string)
    (c : Document) (b : Block) (item : Item) (value : string) (st : Run) : Run :=
  let (ok, m) := check value (Some (msg st)) in
  let st1 := mkRun (default (msg st) m) (unknown_tags st) (report st) in
  if ok then st1 else cif_fail c b item (msg st1) st1.

Section Validate.

Context `{!Lexicon} `{!Indeterminate}.

(** The branch of [validate] for an item of type [Value]. *)
Definition validate_scalar (d : DDL) (c : Document) (b : Block) (item : Item)
    (tg value : string) (st : Run) : Run :=
  match find d tg with
  | None => note_unknown tg st
  | Some dict_block =>
      if decide (version_ d = 1) then
        let tc := TypeCheckDDL1.from_block dict_block TypeCheckDDL1.default in
        let st1 :=
          if decide (TypeCheckDDL1.is_list tc = Yes)
          then cif_fail c b item (tg +:+ " must be a list") st
          else st in
        validate_and_report (TypeCheckDDL1.validate_value tc) c b item value st1
      else
        let tc := TypeCheckDDL2.from_block dict_block TypeCheckDDL2.default in
        validate_and_report (TypeCheckDDL2.validate_value tc) c b item value st
  end.

(** The body of the loop over the columns [i] of an item of type
    [Loop]; the inner loop visits [values[i]], [values[i + ncol]], ... *)
Definition validate_column (d : DDL) (c : Document) (b : Block) (item : Item)
    (tags values : list string) (st : Run) (i : nat) : Run :=
  let ncol := length tags in
  let tg := default "" (tags !! i) in
  match find d tg with
  | None => note_unknown tg st
  | Some dict_block =>
      if decide (version_ d = 1) then
        let tc := TypeCheckDDL1.from_block dict_block TypeCheckDDL1.default in
        let st1 :=
          if decide (TypeCheckDDL1.is_list tc = No)
          then cif_fail c b item (tg +:+ " in list") st
          else st in
        foldl (λ s v, validate_and_report (TypeCheckDDL1.validate_value tc) c b item v s)
              st1 (stride i ncol values)
      else
        let tc := TypeCheckDDL2.from_block dict_block TypeCheckDDL2.default in
        foldl (λ s v, validate_and_report (TypeCheckDDL2.validate_value tc) c b item v s)
              st (stride i ncol values)
  end.

(** The body of the loop over the items of a block; a frame is neither
    a [Value] nor a [Loop] and is passed over. *)
Definition validate_item (d : DDL) (c : Document) (b : Block) (st : Run)
    (item : Item) : Run :=
  match item with
  | Value tg value => validate_scalar d c b item tg value st
  | Loop tags values =>
      foldl (validate_column d c b item tags values) st (seq 0 (length tags))
  | Frame _ => st
  end.

Definition validate_block (d : DDL) (c : Document) (st : Run) (b : Block) : Run :=
  foldl (validate_item d c b) st (items b).

(** The loops of [DDL::validate], from a given state of its variables. *)
Definition validate_from (d : DDL) (c : Document) (st : Run) : Run :=
  foldl (validate_block d c) st (blocks c).

(** [DDL::validate]: [msg] starts empty, and so does the report. *)
Definition validate (d : DDL) (c : Document) (unknown : option (list string)) : Run :=
  validate_from d c (mkRun "" unknown []).

End Validate.

(** ** Notions used to state what the validator does *)

(** The save frames of a block, in order: what [read_ddl2] indexes. *)
Definition frames (b : Block) : list Block :=
  omap (λ item, match item with Frame f => Some f | _ => None end) (items b).

(** A fresh state of the variables of [validate]. *)
Definition fresh : Run := mkRun "" None [].

(** What the statement [validate_and_report] hands to the hook for one
    value. *)
Definition value_report (check : string → option string → bool * option string)
    (b : Block) (item : Item) (value : string) : list Failure :=
  let (ok, m) := check value (Some "") in
  if ok then [] else [mkFailure b item (default "" m)].

(** A check is steady when a success leaves the message as it was and
    a failure writes a text that does not depend on the old message. *)
Definition steady (check : string → option string → bool * option string) : Prop :=
  ∀ v, (∀ m, check v (Some m) = (true, Some m))
       ∨ (∃ text, ∀ m, check v (Some m) = (false, Some text)).

(** The report of a step made from any state is the report so far
    followed by the report of the same step made from a fresh state. *)
Definition additive {X} (f : Run → X → Run) : Prop :=
  ∀ st x, report (f st x) = report st ++ report (f fresh x).

Section Notions.

Context `{!Lexicon} `{!Indeterminate}.

(** The first block of a list that carries a name under [name_tag]. *)
Fixpoint first_definer (nm name_tag : string) (bs : list Block) : option Block :=
  match bs with
  | [] => None
  | b :: rest =>
      if decide (nm ∈ names_of b name_tag) then Some b
      else first_definer nm name_tag rest
  end.

(** A name that is in the index stays with its block; a name that is
    not goes to the first block that carries it. *)
Definition keeps_first (d : DDL) (nm name_tag : string) (bs : list Block)
    : option Block :=
  match find d nm with
  | Some x => Some x
  | None => first_definer nm name_tag bs
  end.




(** The failures the body of the loop over the items reports for one
    item, run on its own. *)
Definition item_report (d : DDL) (c : Document) (b : Block) (item : Item)
    : list Failure :=
  report (validate_item d c b fresh item).

End Notions.

(** ** Sample inputs

    A DDL1 dictionary that defines [_cell_length_a] twice, and a file to
    validate against it. *)
Definition sample_indeterminate : Indeterminate :=
  {| garbage_low := S754_zero false; garbage_high := S754_zero false |}.

Definition sample_cell_block : Block :=
  mkBlock "cell_length_a"
    [Value "_name" "'_cell_length_a'"; Value "_type" "numb";
     Value "_list" "no"; Value "_enumeration_range" "1:5"].

Definition sample_label_block : Block :=
  mkBlock "atom_site_label"
    [Value "_name" "'_atom_site_label'"; Value "_type" "char";
     Value "_list" "yes"].

Definition sample_cell_again : Block :=
  mkBlock "cell_length_a_again"
    [Value "_name" "'_cell_length_a'"; Value "_type" "char"].

Definition sample_symmetry_block : Block :=
  mkBlock "symmetry_cell_setting"
    [Value "_name" "'_symmetry_cell_setting'"; Value "_type" "char";
     Loop ["_enumeration"] ["triclinic"; "monoclinic"; "cubic"]].

Definition sample_dictionary : Document :=
  mkDocument
    [mkBlock "on_this_dictionary"
       [Value "_dictionary_name" "cif_core.dic";
        Value "_dictionary_version" "2.4"];
     sample_cell_block; sample_label_block; sample_cell_again;
     sample_symmetry_block].

Definition sample_ddl : DDL :=
  @open_file sample_lexicon sample_dictionary (DDL_default 0).

Definition sample_empty : Document := mkDocument [].

Definition sample_subject : Document :=
  mkDocument
    [mkBlock "1ABC"
       [Value "_cell_length_a" "7";
        Value "_atom_site_label" "C1";
        Value "_symmetry_cell_setting" "hexagonal";
        Value "_cell_length_b" "?";
        Loop ["_cell_length_a"; "_atom_site_label"] ["5"; "C1"; "x"; "."]]].

End Ddl.

(** * Whole files under the search *)
Module Chunks.
Import Grep.

(** The pieces a file is made of, as far as the actions of [Search]
    can tell: the heading of a data block, the [global_] keyword, a
    tag with its value, and a loop with its tags and values. *)
Inductive Chunk :=
  | Heading (block : string)
  | Global
  | Pair (tg v : string)
  | Table (tags values : list string).

(** Modelled from the spec: the order in which the grammar of [cif.hpp]
    matches the productions of a piece, left to right: a heading is the
    block name; a pair is its tag, then its value; a loop is the
    [loop_] keyword, its tags, its values in row-major order, its end. *)
Definition chunk_productions (c : Chunk) : list Rule :=
  match c with
  | Heading block => [datablockname block]
  | Global => [str_global]
  | Pair tg v => [tag tg; value v]
  | Table tags values => loop_productions tags values
  end.

Definition file_productions (cs : list Chunk) : list Rule :=
  cs ≫= chunk_productions.

(** The raw values a piece holds under a tag: the value of a pair with
    that tag, the column of a loop that declares it. *)
Definition chunk_values (tg : string) (c : Chunk) : list string :=
  match c with
  | Pair t v => if decide (tg = t) then [v] else []
  | Table tags values =>
      match Cif.find_tag tags tg with
      | Some col => Cif.stride col (length tags) values
      | None => []
      end
  | Heading _ | Global => []
  end.

(** The block name in force after a piece. *)
Definition enter (c : Chunk) (p : Parameters) : Parameters :=
  match c with
  | Heading block => set_block_name block p
  | Global => set_block_name "global_" p
  | Pair _ _ | Table _ _ => p
  end.

(** A loop the search can follow: no tag twice, and a width that fits
    an [int]. *)
Definition followable (c : Chunk) : Prop :=
  match c with
  | Table tags _ => NoDup tags ∧ Z.of_nat (length tags) ≤ INT_MAX
  | _ => True
  end.

Section Expected.

Context `{!Cif.Lexicon}.

(** The lines a search for [search_tag p] is to print for a file: for
    each piece in turn, one line for each value under the tag, with the
    name of the block the piece is in. *)
Fixpoint expected_lines (p : Parameters) (cs : list Chunk) : list string :=
  match cs with
  | [] => []
  | c :: rest =>
      ((λ v, match_line p (Cif.as_string v)) <$> chunk_values (search_tag p) c)
      ++ expected_lines (enter c p) rest
  end.

(** The block name in force after a whole file. *)
Definition entered (cs : list Chunk) (p : Parameters) : Parameters :=
  foldl (λ q c, enter c q) p cs.

(** The lines a search is to print for several files, each given by
    its path and its pieces: the files in order, each with its own
    path; the block name is carried from one file into the next. *)
Fixpoint expected_files (p : Parameters) (tg : string)
    (files : list (string * list Chunk)) : list string :=
  match files with
  | [] => []
  | (pth, cs) :: rest =>
      let p1 := set_path pth (set_search_tag tg p) in
      expected_lines p1 cs ++ expected_files (entered cs p1) tg rest
  end.

(** The lines of the counting policy: one count for each pair with the
    tag and for each loop that declares it. *)
Definition chunk_count (p : Parameters) (c : Chunk) : list string :=
  match c with
  | Pair t v =>
      if decide (search_tag p = t) then [count_line (set_counter 1 p)] else []
  | Table tags values =>
      match Cif.find_tag tags (search_tag p) with
      | Some col =>
          [count_line
             (set_counter (Z.of_nat (length (Cif.stride col (length tags) values))) p)]
      | None => []
      end
  | Heading _ | Global => []
  end.

Fixpoint expected_counts (p : Parameters) (cs : list Chunk) : list string :=
  match cs with
  | [] => []
  | c :: rest => chunk_count p c ++ expected_counts (enter c p) rest
  end.

End Expected.

(** The parameters no action reads, assigned together. *)
Definition set_unread (mx : Z) (sm onf inv : bool) (p : Parameters) : Parameters :=
  mkParameters (search_tag p) mx (with_filename p) (with_blockname p)
    (with_tag p) sm onf inv (print_count p) (path p) (block_name p)
    (match_value p) (match_column p) (table_width p) (column p) (counter p).

(** The options of a run, as against its working parameters. *)
Definition options (p : Parameters) : Z * (bool * bool * bool) * (bool * bool * bool * bool) :=
  (max_count p, (with_filename p, with_blockname p, with_tag p),
   (summarize p, only_filenames p, inverse p, print_count p)).

(** The working parameters are at rest: no value is awaited, no column
    is followed, nothing is counted. *)
Definition at_rest (p : Parameters) : Prop :=
  match_value p = false ∧ match_column p = -1 ∧ counter p = 0.

(** A production that names the tag. *)
Definition names_tag (tg : string) (r : Rule) : Prop :=
  match r with
  | tag s | loop_tag s => s = tg
  | _ => False
  end.

(** Two states that print a match the same way. *)
Definition shows_as (p q : Parameters) : Prop :=
  search_tag p = search_tag q ∧ path p = path q ∧ block_name p = block_name q
  ∧ with_filename p = with_filename q ∧ with_blockname p = with_blockname q
  ∧ with_tag p = with_tag q ∧ print_count p = print_count q.

(** A loop whose matches the counter can hold. *)
Definition countable (c : Chunk) : Prop :=
  match c with
  | Table _ values => Z.of_nat (length values) ≤ INT_MAX
  | _ => True
  end.

End Chunks.

(** * More about the dictionary and the validator *)
Module Subject.
Import Cif Ddl.

(** The tags [validate] looks up for an item: the tag of a scalar,
    the tags of a loop; none for a save frame. *)
Definition item_tags (item : Item) : list string :=
  match item with
  | Value tg _ => [tg]
  | Loop tags _ => tags
  | Frame _ => []
  end.

(** The tags of a document in the order in which [validate] meets them. *)
Definition subject_tags (c : Document) : list string :=
  blocks c ≫= λ b, items b ≫= item_tags.

(** The tags among [tags] that the dictionary does not index. *)
Definition unindexed (d : DDL) (tags : list string) : list string :=
  filter (λ tg, find d tg = None) tags.

(** The blocks a dictionary is indexed by: the blocks themselves for
    DDL1 (more than one block), the save frames for DDL2. *)
Definition carriers (doc : Document) : list Block :=
  if decide (1 < length (blocks doc))%nat then blocks doc
  else blocks doc ≫= frames.

Definition name_tag_of (doc : Document) : string :=
  if decide (1 < length (blocks doc))%nat then "_name" else "_item.name".

Section Titles.

Context `{!Lexicon}.

(** What the blocks of a DDL1 dictionary assign to [dict_name_] and to
    [dict_version_], in order. *)
Definition ddl1_assigned (tg : string) (bs : list Block) : list string :=
  omap (λ b, if decide (name b = "on_this_dictionary")
             then as_string <$> find_value b tg else None) bs.

(** What the items of a DDL2 dictionary assign to [dict_name_]
    ([tg] is [_dictionary.title]) or to [dict_version_]
    ([_dictionary.version]), in order: the raw values. *)
Definition ddl2_assigned (tg : string) (bs : list Block) : list string :=
  bs ≫= λ b, omap (λ item, match item with
                            | Value t v => if decide (t = tg) then Some v else None
                            | _ => None
                            end) (items b).

End Titles.

End Subject.

(** * The Python binding, second part of [include/gemmi/ddl.hpp] *)
Module Binding.

(** The body of the loop of [str_join], on the pair of [r] and
    [first]. *)
Definition str_join_step (sep : string) (st : string * bool) (i : string)
    : string * bool :=
  let (r, first) := st in
  ((if first then r else r +:+ sep) +:+ i, false).

(** [str_join]. *)
Definition str_join (iterable : list string) (sep : string) : string :=
  (foldl (str_join_step sep) ("", true) iterable).1.

End Binding.

(** * The command line of [grep.cpp] *)
Module CommandLine.

(** [option::ArgStatus], the two values [Arg::Int] returns. *)
Inductive ArgStatus := ARG_OK | ARG_ILLEGAL.

(** [isspace] in the C locale. *)
Definition isspace (c : ascii) : bool :=
  let n := Ascii.nat_of_ascii c in
  (n =? 32)%nat || ((9 <=? n)%nat && (n <=? 13)%nat).

Definition is_sign (c : ascii) : bool :=
  bool_decide (c = "+"%char) || bool_decide (c = "-"%char).

(** The length of the longest prefix whose characters satisfy [f]. *)
Fixpoint span (f : ascii → bool) (s : string) : nat :=
  match s with
  | String c rest => if f c then S (span f rest) else 0%nat
  | EmptyString => 0%nat
  end.

(** [endptr - nptr] after [strtol(nptr, &endptr, 10)] of the C library:
    white space is skipped, a sign is optional, then come the digits;
    without a digit no conversion is made and [endptr] is [nptr]. *)
Definition strtol_consumed (s : string) : nat :=
  let ws := span isspace s in
  let after_ws := Ddl.str_drop ws s in
  let sign := match after_ws with
              | String c _ => if is_sign c then 1%nat else 0%nat
              | EmptyString => 0%nat
              end in
  let digits := span Cif.is_digit (Ddl.str_drop sign after_ws) in
  if decide (digits = 0%nat) then 0%nat else (ws + sign + digits)%nat.

(** [Arg::Int]: [arg] is [option.arg] ([None] for a null pointer),
    [name] is [option.name]; the second component is what is written
    to [stderr]. *)
Definition Int (arg : option string) (name : string) (msg : bool)
    : ArgStatus * list string :=
  let ok := match arg with
            | Some a =>
                let endptr := strtol_consumed a in
                bool_decide (endptr ≠ 0%nat)
                && bool_decide (endptr = String.length a)
            | None => false
            end in
  if ok then (ARG_OK, [])
  else (ARG_ILLEGAL,
        if msg then ["Option '" +:+ name +:+ "' requires a numeric argument" +:+ nl]
        else []).

(** A text [strtol] converts as a whole: white space, an optional
    sign, one digit or more. *)
Definition numeric_text (a : string) : Prop :=
  ∃ ws sign digits,
    a = ws +:+ sign +:+ digits
    ∧ span isspace ws = String.length ws
    ∧ (sign = "" ∨ sign = "+" ∨ sign = "-")
    ∧ digits ≠ "" ∧ Cif.all_digits digits = true.

End CommandLine.

(** * More sample inputs *)
Module Samples.
Import Cif Grep Ddl Chunks.

(** A file of two blocks: the tag searched for occurs as a scalar and
    as the third column of a loop in the first, as a scalar in the
    [global_] block; another loop does not declare it. *)
Definition sample_file : list Chunk :=
  [Heading "1ABC"; Pair "_cell.length_a" "10.5";
   Pair "_atom_site.label" "'X1'"; Table sample_tags sample_values;
   Table ["_symmetry.id"; "_symmetry.op"] ["1"; "x,y,z"; "2"; "-x,y,-z"];
   Global; Pair "_atom_site.label" "G"].

Definition sample_counting_at_rest : Parameters :=
  mkParameters "_atom_site.label" 10 false true false false false false true
    "1abc.cif" "" false (-1) 0 0 0.

(** A DDL2 dictionary: one block, a save frame for each item. *)
Definition sample_setting_frame : Block :=
  mkBlock "_symmetry.cell_setting"
    [Value "_item.name" "'_symmetry.cell_setting'";
     Loop ["_item_enumeration.value"] ["triclinic"]].

Definition sample_ddl2_dictionary : Document :=
  mkDocument
    [mkBlock "mmcif_pdbx.dic"
       [Value "_dictionary.title" "mmcif_pdbx.dic";
        Value "_dictionary.version" "5.0";
        Frame sample_setting_frame]].

Definition sample_ddl2 : DDL :=
  @open_file sample_lexicon sample_ddl2_dictionary (DDL_default 0).

(** DDL1 definitions with a range that cannot apply: one of a tag of
    type [char], one with no colon in the range. *)
Definition sample_char_with_range : Block :=
  mkBlock "atom_type_symbol"
    [Value "_name" "'_atom_type_symbol'"; Value "_type" "char";
     Value "_enumeration_range" "1:5"].

Definition sample_range_without_colon : Block :=
  mkBlock "atom_site_flag"
    [Value "_name" "'_atom_site_flag'"; Value "_type" "char";
     Value "_enumeration_range" "5";
     Loop ["_enumeration"] ["a"; "b"]].

(** A file none of whose tags the sample DDL1 dictionary indexes. *)
Definition sample_foreign_subject : Document :=
  mkDocument
    [mkBlock "2XYZ"
       [Value "_exptl.method" "X-RAY"; Loop ["_struct.id"; "_struct.title"] ["1"; "t"];
        Frame (mkBlock "inner" [Value "_cell_length_a" "99"])]].

(** A scalar under the sample DDL2 dictionary, and a loop under the
    sample DDL1 dictionary. *)
Definition sample_setting_item : Item :=
  Value "_symmetry.cell_setting" "monoclinic".

Definition sample_setting_block : Block := mkBlock "1ABC" [sample_setting_item].

Definition sample_mixed_loop : Item :=
  Loop ["_cell_length_a"; "_atom_site_label"] ["5"; "C1"; "x"; "."].

Definition sample_mixed_block : Block := mkBlock "1ABC" [sample_mixed_loop].

End Samples.

(** * What [validate] is to report *)
Module Expected.
Import Cif Ddl.

(** The two positions in which [validate] looks a tag up: the tag of an
    item of type [Value], and a tag of an item of type [Loop]. *)
Inductive Position := AsScalar | AsColumn.

Section Expected.

Context `{!Lexicon} `{!Indeterminate}.

(** The check [validate] applies to the values of a tag whose defining
    block is [db]: that of the checker of the dialect, built from
    [db]. *)
Definition checker (d : DDL) (db : Block)
    : string → option string → bool * option string :=
  if decide (version_ d = 1)
  then TypeCheckDDL1.validate_value
         (TypeCheckDDL1.from_block db TypeCheckDDL1.default)
  else TypeCheckDDL2.validate_value
         (TypeCheckDDL2.from_block db TypeCheckDDL2.default).

(** The answer of [is_list] that is a failure at a position, and the
    text of that failure. *)
Definition forbidden (pos : Position) : Trinary :=
  match pos with AsScalar => Yes | AsColumn => No end.

Definition cardinality_text (pos : Position) (tg : string) : string :=
  match pos with
  | AsScalar => tg +:+ " must be a list"
  | AsColumn => tg +:+ " in list"
  end.

(** The failures due for one occurrence of a tag with the values it
    has there: nothing for a tag the dictionary does not index; else,
    under DDL1, the cardinality failure if the position is the
    forbidden one, and then one failure for each value the check
    rejects, in order. *)
Definition occurrence_failures (d : DDL) (b : Block) (item : Item)
    (pos : Position) (tg : string) (values : list string) : list Failure :=
  match find d tg with
  | None => []
  | Some db =>
      (if decide (version_ d = 1
                  ∧ TypeCheckDDL1.is_list
                      (TypeCheckDDL1.from_block db TypeCheckDDL1.default)
                    = forbidden pos)
       then [mkFailure b item (cardinality_text pos tg)] else [])
      ++ (values ≫= value_report (checker d db) b item)
  end.

(** The failures due for an item that stands in a block: a scalar is
    one occurrence of its tag, a loop is one occurrence of each of its
    tags, with the values of that column; a save frame is due
    nothing. *)
Definition item_failures (d : DDL) (b : Block) (item : Item) : list Failure :=
  match item with
  | Value tg v => occurrence_failures d b item AsScalar tg [v]
  | Loop tags values =>
      seq 0 (length tags) ≫= λ i,
        occurrence_failures d b item AsColumn (default "" (tags !! i))
          (stride i (length tags) values)
  | Frame _ => []
  end.

Definition block_failures (d : DDL) (b : Block) : list Failure :=
  items b ≫= item_failures d b.

Definition document_failures (d : DDL) (c : Document) : list Failure :=
  blocks c ≫= block_failures d.

(** The raw text the defining block of a tag gives for [_list]. *)
Definition list_attribute (d : DDL) (tg : string) : option string :=
  find d tg ≫= λ db, find_value db "_list".

(** The cardinality rule of DDL1 in the words of the specification:
    [yes] forbids the scalar position, [no] forbids the column
    position, anything else forbids nothing. *)
Definition cardinality_failures (d : DDL) (b : Block) (item : Item)
    (pos : Position) (tg : string) : list Failure :=
  match pos with
  | AsScalar =>
      if decide (list_attribute d tg = Some "yes")
      then [mkFailure b item (tg +:+ " must be a list")] else []
  | AsColumn =>
      if decide (list_attribute d tg = Some "no")
      then [mkFailure b item (tg +:+ " in list")] else []
  end.

(** The failures of the DDL1 check of a tag on values, in order. *)
Definition value_failures (d : DDL) (b : Block) (item : Item) (tg : string)
    (values : list string) : list Failure :=
  match find d tg with
  | Some db =>
      values ≫= value_report
                  (TypeCheckDDL1.validate_value
                     (TypeCheckDDL1.from_block db TypeCheckDDL1.default))
                  b item
  | None => []
  end.

(** What a DDL1 dictionary is to report for an item that stands in a
    block: for each occurrence of a tag the cardinality failure, if
    any, and then the failures of its values. *)
Definition ddl1_item_failures (d : DDL) (b : Block) (item : Item)
    : list Failure :=
  match item with
  | Value tg v =>
      cardinality_failures d b item AsScalar tg ++ value_failures d b item tg [v]
  | Loop tags values =>
      seq 0 (length tags) ≫= λ i,
        cardinality_failures d b item AsColumn (default "" (tags !! i))
        ++ value_failures d b item (default "" (tags !! i))
             (stride i (length tags) values)
  | Frame _ => []
  end.

End Expected.

End Expected.

(** * Numbers in double and in single precision *)
Module Precision.
Import Cif Ddl.






End Precision.

(** * Sample inputs for the validator *)
Module ValidatorSamples.
Import Cif Ddl.


(** A DDL1 dictionary that writes the word [yes] of [_list] in
    quotes. *)
Definition sample_quoted_label_block : Block :=
  mkBlock "atom_site_label"
    [Value "_name" "'_atom_site_label'"; Value "_type" "char";
     Value "_list" "'yes'"].

Definition sample_quoted_dictionary : Document :=
  mkDocument
    [mkBlock "on_this_dictionary"
       [Value "_dictionary_name" "cif_core.dic";
        Value "_dictionary_version" "2.4"];
     sample_quoted_label_block].

Definition sample_quoted_ddl : DDL :=
  @open_file sample_lexicon sample_quoted_dictionary (DDL_default 0).

(** The tag of type list as a scalar: directly in a block, and inside a
    save frame of a block. *)
Definition sample_label_item : Item := Value "_atom_site_label" "C1".

Definition sample_scalar_subject : Document :=
  mkDocument [mkBlock "1ABC" [sample_label_item]].

Definition sample_framed_subject : Document :=
  mkDocument [mkBlock "1ABC" [Frame (mkBlock "site" [sample_label_item])]].

(** Items that fail their checks, as a block of their own and as a save
    frame of another block. *)
Definition sample_failing_block : Block :=
  mkBlock "cell"
    [Value "_cell_length_a" "abc"; Loop ["_cell_length_a"] ["7"];
     Value "_cell_length_b" "1"].

Definition sample_failing_directly : Document :=
  mkDocument [sample_failing_block].

Definition sample_failing_in_frame : Document :=
  mkDocument [mkBlock "1ABC" [Frame sample_failing_block]].

End ValidatorSamples.

(** * Facts about the models *)

Arguments int_incr : simpl never.
Arguments int_wrap : simpl never.

Lemma int_wrap_small z : - 2 ^ 31 ≤ z ≤ INT_MAX → int_wrap z = z.
Proof.
  unfold int_wrap, INT_MAX. intros Hz.
  rewrite Z.mod_small; lia.
Qed.

Lemma int_incr_small z : - 2 ^ 31 ≤ z < INT_MAX → int_incr z = z + 1.
Proof.
  unfold int_incr. intros Hz. apply int_wrap_small. unfold INT_MAX in *. lia.
Qed.

(** ** Columns of a flat row-major sequence *)
Module CifFacts.
Import Cif.

(** The elements of a column are those at [skip + k * width]. *)
Lemma stride_lookup {A} (vs : list A) skip w k :
  (0 < w)%nat → stride skip w vs !! k = vs !! (skip + k * w)%nat.
Proof.
  intros Hw. revert skip k.
  induction vs as [|v vs IH]; intros skip k.
  - by rewrite !lookup_nil.
  - destruct skip as [|skip]; simpl.
    + destruct k as [|k]; [done|].
      rewrite lookup_cons. rewrite IH.
      replace (S k * w)%nat with (S (w - 1 + k * w)) by lia. done.
    + apply IH.
Qed.

Lemma stride_length {A} (vs : list A) c w n :
  (c < w)%nat → length vs = (n * w)%nat → length (stride c w vs) = n.
Proof.
  intros Hc Hlen.
  assert (Hw : (0 < w)%nat) by lia.
  destruct (Nat.lt_trichotomy (length (stride c w vs)) n) as [Hlt|[Heq|Hgt]];
    [exfalso|done|exfalso].
  - assert (Hnone : stride c w vs !! length (stride c w vs) = None)
      by (apply lookup_ge_None; lia).
    rewrite stride_lookup in Hnone by done.
    apply lookup_ge_None in Hnone. nia.
  - assert (Hsome : is_Some (stride c w vs !! n))
      by (apply lookup_lt_is_Some; lia).
    rewrite stride_lookup in Hsome by done.
    apply lookup_lt_is_Some in Hsome. nia.
Qed.

End CifFacts.

(** ** The streaming search *)
Module GrepFacts.
Import Grep.

Section Facts.

Context `{!Cif.Lexicon}.

Lemma parse_app xs ys st : parse (xs ++ ys) st = parse ys (parse xs st).
Proof. apply foldl_app. Qed.

Lemma parse_cons r rs st : parse (r :: rs) st = parse rs (Search r st).
Proof. done. Qed.

(** With [print_count] off, [process_match] leaves the parameters alone. *)
Lemma process_matches_print vs p out :
  print_count p = false →
  process_matches vs (p, out)
  = (p, out ++ ((λ v, match_line p (Cif.as_string v)) <$> vs)).
Proof.
  intros Hp. revert out. unfold process_matches.
  induction vs as [|v vs IH]; intros out; simpl.
  - by rewrite app_nil_r.
  - rewrite Hp, IH. by rewrite <- app_assoc.
Qed.

(** The [loop_tag] action on a tag that is not the one searched for
    only widens the table. *)
Lemma loop_tags_absent tags : ∀ p out mc col (k : nat),
  search_tag p ∉ tags →
  Z.of_nat (k + length tags) ≤ INT_MAX →
  parse (loop_tag <$> tags) (set_loop_state mc (Z.of_nat k) col p, out)
  = (set_loop_state mc (Z.of_nat (k + length tags)) col p, out).
Proof.
  induction tags as [|t tags IH]; intros p out mc col k Hnot Hhi.
  - cbn [length fmap list_fmap parse foldl]. by rewrite Nat.add_0_r.
  - rewrite fmap_cons, parse_cons.
    apply not_elem_of_cons in Hnot as [Hne Hnot].
    cbn [length] in Hhi.
    assert (E : Search (loop_tag t) (set_loop_state mc (Z.of_nat k) col p, out)
                = (set_loop_state mc (Z.of_nat (S k)) col p, out)).
    { unfold Search, set_loop_state. fields.
      rewrite decide_False by done. fields.
      rewrite int_incr_small by (unfold INT_MAX in *; lia).
      replace (Z.of_nat k + 1) with (Z.of_nat (S k)) by lia.
      by destruct p. }
    rewrite E, IH by (done || lia). do 3 f_equal. cbn [length]. lia.
Qed.

(** The [loop_tag] action on the tag searched for records the column. *)
Lemma loop_tag_found p out mc col (k : nat) :
  Z.of_nat k < INT_MAX →
  Search (loop_tag (search_tag p)) (set_loop_state mc (Z.of_nat k) col p, out)
  = (set_loop_state (Z.of_nat k) (Z.of_nat (S k)) 0 p, out).
Proof.
  intros Hk. unfold Search, set_loop_state. fields.
  rewrite decide_True by done. fields.
  rewrite int_incr_small by (unfold INT_MAX in *; lia).
  replace (Z.of_nat k + 1) with (Z.of_nat (S k)) by lia.
  by destruct p.
Qed.

(** One [loop_value] action in a table of width [w] whose column [c]
    is the one searched for, standing at column [j]. *)
Lemma loop_value_step v p out (c w j : nat) :
  (c < w)%nat → (j < w)%nat → Z.of_nat w ≤ INT_MAX →
  Search (loop_value v)
         (set_loop_state (Z.of_nat c) (Z.of_nat w) (Z.of_nat j) p, out)
  = let st := if decide (j = c) then process_match (Cif.as_string v) (p, out)
              else (p, out) in
    (set_loop_state (Z.of_nat c) (Z.of_nat w) (Z.of_nat (next_column j w))
       st.1, st.2).
Proof.
  intros Hc Hj Hw.
  assert (Hincr : int_incr (Z.of_nat j) = Z.of_nat (S j))
    by (rewrite int_incr_small; unfold INT_MAX in *; lia).
  destruct p as [st mx wf wb wt sm onf inv pc pth bn mv mc tw col cnt].
  unfold Search, set_loop_state, process_match, next_column.
  cbn [match_column table_width column counter print_count set_match_column
       set_table_width set_column set_counter].
  rewrite decide_True by lia.
  destruct (decide (j = c)) as [->|Hne].
  - rewrite decide_True by done.
    destruct pc; simpl;
      rewrite Hincr; destruct (decide (S c = w)) as [->|Hw'].
    all: try (rewrite decide_True by done; reflexivity).
    all: rewrite decide_False by lia; reflexivity.
  - rewrite (decide_False (P := Z.of_nat j = Z.of_nat c)) by lia.
    simpl.
    rewrite Hincr. destruct (decide (S j = w)) as [->|Hw'].
    + rewrite decide_True by done. reflexivity.
    + rewrite decide_False by lia. reflexivity.
Qed.

Lemma next_column_mod j w : (j < w)%nat → next_column j w = (S j `mod` w)%nat.
Proof.
  intros Hj. unfold next_column. case_decide as E.
  - subst w. by rewrite Nat.Div0.mod_same.
  - rewrite Nat.mod_small; lia.
Qed.

Lemma next_match_here c w : (c < w)%nat → next_match c c w = 0%nat
  ∧ next_match c (next_column c w) w = (w - 1)%nat.
Proof.
  intros Hc. unfold next_match, next_column. repeat case_decide; lia.
Qed.

Lemma next_match_away c j w :
  (c < w)%nat → (j < w)%nat → j ≠ c →
  next_match c j w = S (next_match c (next_column j w) w).
Proof.
  intros Hc Hj Hne. unfold next_match, next_column. repeat case_decide; lia.
Qed.

(** The values of a loop: [process_match] is called on the values of
    column [c] and on no other, in the order of the rows. *)
Lemma loop_values_run values : ∀ p out (c w j : nat),
  (c < w)%nat → (j < w)%nat → Z.of_nat w ≤ INT_MAX →
  parse (loop_value <$> values)
        (set_loop_state (Z.of_nat c) (Z.of_nat w) (Z.of_nat j) p, out)
  = let st := process_matches (Cif.stride (next_match c j w) w values) (p, out) in
    (set_loop_state (Z.of_nat c) (Z.of_nat w)
       (Z.of_nat ((j + length values) `mod` w)) st.1, st.2).
Proof.
  induction values as [|v values IH]; intros p out c w j Hc Hj Hw.
  - cbn. rewrite Nat.add_0_r, Nat.mod_small by done. done.
  - rewrite fmap_cons, parse_cons, loop_value_step by done.
    assert (Hnext : (next_column j w < w)%nat)
      by (unfold next_column; case_decide; lia).
    assert (Hcol : ((next_column j w + length values) `mod` w
                    = (j + length (v :: values)) `mod` w)%nat).
    { rewrite next_column_mod by done. rewrite Nat.Div0.add_mod_idemp_l.
      f_equal. simpl. lia. }
    destruct (decide (j = c)) as [->|Hne].
    + destruct (next_match_here c w Hc) as [E0 E1].
      rewrite E0. cbn [Cif.stride].
      destruct (process_match (Cif.as_string v) (p, out)) as [p1 out1] eqn:E.
      cbn [fst snd]. rewrite IH by done. rewrite E1, Hcol.
      unfold process_matches. cbn [foldl]. by rewrite E.
    + rewrite (next_match_away c j w) by done. cbn [Cif.stride fst snd].
      rewrite IH by done. by rewrite Hcol.
Qed.

Lemma finish_processing_loop_state mc tw col p out :
  finish_processing (set_loop_state mc tw col p, out)
  = (set_loop_state mc tw col (finish_processing (p, out)).1,
     (finish_processing (p, out)).2).
Proof. destruct p; unfold finish_processing; simpl. by destruct print_count0. Qed.

(** The tags of a loop whose column [c] is the tag searched for. *)
Lemma loop_tags_run tags p out (c : nat) :
  NoDup tags → tags !! c = Some (search_tag p) →
  Z.of_nat (length tags) ≤ INT_MAX →
  parse (loop_tag <$> tags) (set_table_width 0 p, out)
  = (set_loop_state (Z.of_nat c) (Z.of_nat (length tags)) 0 p, out).
Proof.
  intros Hnd Hc Hw.
  pose proof (lookup_lt_Some _ _ _ Hc) as Hlt.
  pose proof (length_take_le tags c ltac:(lia)) as Htake.
  pose proof (length_drop tags (S c)) as Hdrop.
  rewrite <- (take_drop_middle _ _ _ Hc) in Hnd.
  apply NoDup_app in Hnd as (_ & Hpre & Hnd).
  apply NoDup_cons in Hnd as [Hpost _].
  assert (Hpre' : search_tag p ∉ take c tags).
  { intros Hin. apply (Hpre _ Hin). left. }
  rewrite <- (take_drop_middle _ _ _ Hc) at 1.
  rewrite fmap_app, parse_app, fmap_cons, parse_cons.
  replace (set_table_width 0 p)
    with (set_loop_state (match_column p) (Z.of_nat 0) (column p) p)
    by (by destruct p).
  rewrite loop_tags_absent by (done || lia).
  rewrite Nat.add_0_l, Htake.
  rewrite loop_tag_found by (unfold INT_MAX in *; lia).
  rewrite loop_tags_absent by (done || lia).
  do 3 f_equal. lia.
Qed.

(** A whole loop. *)
Lemma loop_run tags values p out (c n : nat) :
  NoDup tags → tags !! c = Some (search_tag p) →
  length values = (n * length tags)%nat →
  Z.of_nat (length tags) ≤ INT_MAX →
  parse (loop_productions tags values) (p, out)
  = let st := finish_processing
                (process_matches (Cif.stride c (length tags) values) (p, out)) in
    (set_loop_state (-1) (Z.of_nat (length tags)) 0 st.1, st.2).
Proof.
  intros Hnd Hc Hlen Hw.
  pose proof (lookup_lt_Some _ _ _ Hc) as Hlt.
  unfold loop_productions.
  rewrite parse_cons, !parse_app.
  change (Search str_loop (p, out)) with (set_table_width 0 p, out).
  rewrite (loop_tags_run tags p out c) by done.
  change 0 with (Z.of_nat 0).
  rewrite loop_values_run by (done || lia).
  replace (next_match c 0 (length tags)) with c
    by (unfold next_match; case_decide; lia).
  rewrite Nat.add_0_l, Hlen, Nat.Div0.mod_mul.
  destruct (process_matches (Cif.stride c (length tags) values) (p, out))
    as [p1 out1].
  cbn [fst snd parse foldl]. unfold Search.
  rewrite decide_True by (destruct p1; simpl; lia).
  rewrite finish_processing_loop_state.
  destruct (finish_processing (p1, out1)) as [p2 out2]. simpl.
  by destruct p2.
Qed.

Lemma process_match_keeps v p out :
  column (process_match v (p, out)).1 = column p
  ∧ table_width (process_match v (p, out)).1 = table_width p
  ∧ (print_count p = false →
     process_match v (p, out) = (p, out ++ [match_line p v])).
Proof. unfold process_match. by destruct (print_count p). Qed.

(** In counting mode [process_match] only counts. *)
Lemma process_matches_count vs p out :
  print_count p = true →
  - 2 ^ 31 ≤ counter p → counter p + Z.of_nat (length vs) ≤ INT_MAX →
  process_matches vs (p, out)
  = (set_counter (counter p + Z.of_nat (length vs)) p, out).
Proof.
  revert p. unfold process_matches.
  induction vs as [|v vs IH]; intros p Hp Hlo Hhi.
  - cbn [foldl length]. rewrite Z.add_0_r. by destruct p.
  - cbn [foldl process_match]. rewrite Hp.
    cbn [length] in Hhi.
    rewrite int_incr_small by (unfold INT_MAX in *; lia).
    rewrite IH; fields; [|done|lia|lia].
    replace (counter p + 1 + Z.of_nat (length vs))
      with (counter p + Z.of_nat (length (v :: vs))) by (cbn [length]; lia).
    by destruct p.
Qed.

(** No action reads [max_count]: each commutes with an assignment to
    it. *)
Lemma Search_max_count r p out m :
  Search r (set_max_count m p, out)
  = (set_max_count m (Search r (p, out)).1, (Search r (p, out)).2).
Proof.
  destruct p as [st mx wf wb wt sm onf inv pc pth bn mv mc tw col cnt].
  destruct r; unfold Search, process_match, finish_processing; simpl;
    repeat case_decide; try done; destruct mv, pc; simpl;
    repeat case_decide; done.
Qed.

Lemma parse_max_count rs p out m :
  parse rs (set_max_count m p, out)
  = (set_max_count m (parse rs (p, out)).1, (parse rs (p, out)).2).
Proof.
  revert p out. induction rs as [|r rs IH]; intros p out; [done|].
  rewrite !parse_cons, Search_max_count.
  destruct (Search r (p, out)) as [p' out']. apply IH.
Qed.

Lemma grep_file_max_count tg pth rs p out m :
  grep_file tg pth rs (set_max_count m p, out)
  = (set_max_count m (grep_file tg pth rs (p, out)).1,
     (grep_file tg pth rs (p, out)).2).
Proof.
  unfold grep_file. rewrite <- parse_max_count. by destruct p.
Qed.

(** Claim C8.  A file fragment made of one loop with [w] declared tags,
    the tag searched for declared as column [c] (and no tag declared
    twice), and [n * w] values: the search hands to [process_match]
    exactly [n] values, the [r]-th of them the value at position
    [r * w + c] of the flat sequence, in row order, and then runs
    [finish_processing].  With the default policy the output grows by
    one line per row; with the counting policy it grows by one line
    holding the count [n].  One [loop_value] action with an armed
    [match_column] emits iff [column] equals [match_column], and moves
    [column] one step, back to 0 when it reaches [table_width].  The
    width is assumed to fit an [int]. *)
Theorem C8_loop_search_emits_one_column tags values p out (c n : nat) :
  NoDup tags →
  tags !! c = Some (search_tag p) →
  length values = (n * length tags)%nat →
  Z.of_nat (length tags) ≤ INT_MAX →
  let w := length tags in
  let emitted := Cif.stride c w values in
  let run := parse (loop_productions tags values) (p, out) in
  (length emitted = n
   ∧ ∀ r, (r < n)%nat → emitted !! r = values !! (r * w + c)%nat)
  ∧ run = (let st := finish_processing (process_matches emitted (p, out)) in
           (set_loop_state (-1) (Z.of_nat w) 0 st.1, st.2))
  ∧ (print_count p = false →
     run.2 = out ++ ((λ v, match_line p (Cif.as_string v)) <$> emitted))
  ∧ (print_count p = true → 0 ≤ counter p → counter p + Z.of_nat n ≤ INT_MAX →
     run.2 = out ++ [count_line (set_counter (counter p + Z.of_nat n) p)])
  ∧ (∀ v q o, match_column q ≠ -1 →
       column (Search (loop_value v) (q, o)).1
       = (if decide (int_incr (column q) = table_width q) then 0
          else int_incr (column q))
       ∧ (print_count q = false →
          (Search (loop_value v) (q, o)).2
          = if decide (column q = match_column q)
            then o ++ [match_line q (Cif.as_string v)] else o)).
Proof.
  intros Hnd Hc Hlen Hw w emitted run.
  pose proof (lookup_lt_Some _ _ _ Hc) as Hlt.
  assert (Hn : length emitted = n) by (by apply CifFacts.stride_length).
  assert (Hrun := loop_run tags values p out c n Hnd Hc Hlen Hw).
  fold w emitted run in Hrun. cbv zeta in Hrun.
  split; [split; [done|]|split; [done|split; [|split]]].
  - intros r Hr. unfold emitted. rewrite CifFacts.stride_lookup by lia.
    f_equal. lia.
  - intros Hp. rewrite Hrun. cbn [snd].
    rewrite process_matches_print by done.
    unfold finish_processing. by rewrite Hp.
  - intros Hp Hlo Hhi. rewrite Hrun. cbn [snd].
    rewrite process_matches_count by (rewrite ?Hn; unfold INT_MAX in *; lia || done).
    rewrite Hn. unfold finish_processing. fields. by rewrite Hp.
  - intros v q o Hq. unfold Search. rewrite decide_True by done.
    destruct (process_match_keeps (Cif.as_string v) q o) as (Hcol & Htw & Hout).
    destruct (decide (column q = match_column q)) as [E|E].
    + destruct (process_match (Cif.as_string v) (q, o)) as [q1 o1].
      cbn [fst snd] in *. fields. rewrite Hcol, Htw.
      split; [by case_decide|].
      intros Hp. specialize (Hout Hp). by injection Hout as _ ->.
    + fields. split; [by case_decide|done].
Qed.

(** Claim C9.  Two runs of the search over the same files whose
    parameters differ only in [max_count] write the same output and
    end with the same counter: no action reads [max_count]. *)
Theorem C9_max_count_is_never_enforced tg files p out m :
  let run1 := grep_files tg files (p, out) in
  let run2 := grep_files tg files (set_max_count m p, out) in
  run2.2 = run1.2 ∧ counter run2.1 = counter run1.1
  ∧ run2.1 = set_max_count m run1.1.
Proof.
  cbv zeta.
  assert (E : grep_files tg files (set_max_count m p, out)
              = (set_max_count m (grep_files tg files (p, out)).1,
                 (grep_files tg files (p, out)).2)).
  { revert p out. unfold grep_files.
    induction files as [|[pth rs] files IH]; intros p out; [done|].
    cbn [foldl fst snd]. rewrite grep_file_max_count.
    destruct (grep_file tg pth rs (p, out)) as [p' out']. apply IH. }
  rewrite E. cbn [fst snd]. by split.
Qed.

End Facts.

(** The loop of five columns and three rows, searched for its third
    column. *)
Lemma C8_witness :
  (@parse Cif.sample_lexicon (loop_productions sample_tags sample_values)
     (sample_parameters, [])).2
  = [":  N1" +:+ nl; ":  CA" +:+ nl; ":  O1" +:+ nl].
Proof.
  refine (proj1 (proj2 (proj2 (@C8_loop_search_emits_one_column
    Cif.sample_lexicon sample_tags sample_values sample_parameters []
    2%nat 3%nat _ _ _ _))) _).
  - apply (bool_decide_unpack _). vm_compute. exact I.
  - reflexivity.
  - reflexivity.
  - vm_compute. discriminate.
  - reflexivity.
Defined.

End GrepFacts.

(** ** The dictionary: its index and the conformance check *)
Module DictionaryFacts.
Import Cif Ddl.

Section Facts.
Context `{!Lexicon}.

Lemma lookup_emplace {V} (m : gmap string V) k v nm :
  emplace k v m !! nm
  = match m !! nm with
    | Some x => Some x
    | None => if decide (nm = k) then Some v else None
    end.
Proof.
  unfold emplace. destruct (m !! k) as [x|] eqn:Ek.
  - destruct (m !! nm) as [y|] eqn:En; [done|].
    case_decide; [congruence|done].
  - destruct (decide (nm = k)) as [->|Hne].
    + by rewrite lookup_insert_eq, Ek.
    + rewrite lookup_insert_ne by done. by destruct (m !! nm).
Qed.

Lemma lookup_emplace_all {V} (names : list string) (v : V) m nm :
  foldl (λ m' n, emplace n v m') m names !! nm
  = match m !! nm with
    | Some x => Some x
    | None => if decide (nm ∈ names) then Some v else None
    end.
Proof.
  revert m. induction names as [|n names IH]; intros m; cbn [foldl].
  - destruct (m !! nm); [done|]. case_decide; [set_solver|done].
  - rewrite IH, lookup_emplace.
    destruct (m !! nm); [done|].
    destruct (decide (nm = n)) as [->|Hne].
    + destruct (decide (n ∈ n :: names)); [reflexivity|set_solver].
    + destruct (decide (nm ∈ names)) as [Hin|Hout],
        (decide (nm ∈ n :: names)) as [Hin'|Hout']; try reflexivity.
      * exfalso. apply Hout'. by right.
      * exfalso. apply elem_of_cons in Hin' as [?|?]; done.
Qed.

(** [add_to_index] changes the index only, by an [emplace] for each
    name of the block. *)
Lemma add_to_index_spec b name_tag d :
  add_to_index b name_tag d
  = set_name_index
      (foldl (λ m n, emplace n b m) (name_index_ d) (names_of b name_tag)) d.
Proof.
  unfold add_to_index, names_of.
  destruct (find_value b name_tag) as [nm|]; [done|].
  generalize (find_loop b name_tag) as l. intros l. revert d.
  induction l as [|x l IH]; intros d; simpl.
  - by destruct d.
  - rewrite IH. by destruct d.
Qed.

Lemma find_add_to_index b name_tag d nm :
  find (add_to_index b name_tag d) nm
  = match find d nm with
    | Some x => Some x
    | None => if decide (nm ∈ names_of b name_tag) then Some b else None
    end.
Proof.
  rewrite add_to_index_spec. unfold find. cbn [name_index_ set_name_index].
  apply lookup_emplace_all.
Qed.

Lemma find_set_dict_name v d nm : find (set_dict_name v d) nm = find d nm.
Proof. done. Qed.

Lemma find_set_dict_version v d nm : find (set_dict_version v d) nm = find d nm.
Proof. done. Qed.

Lemma find_read_ddl1_block d b nm :
  find (read_ddl1_block d b) nm
  = match find d nm with
    | Some x => Some x
    | None => if decide (nm ∈ names_of b "_name") then Some b else None
    end.
Proof.
  unfold read_ddl1_block. case_decide; [|apply find_add_to_index].
  destruct (find_value b "_dictionary_name"), (find_value b "_dictionary_version");
    rewrite ?find_set_dict_version, ?find_set_dict_name;
    apply find_add_to_index.
Qed.

Lemma first_definer_app nm tag xs ys :
  first_definer nm tag (xs ++ ys)
  = match first_definer nm tag xs with
    | Some b => Some b
    | None => first_definer nm tag ys
    end.
Proof.
  induction xs as [|x xs IH]; [done|]. cbn [app first_definer].
  by destruct (decide (nm ∈ names_of x tag)).
Qed.

Lemma first_definer_first nm name_tag bs b :
  first_definer nm name_tag bs = Some b →
  ∃ before after,
    bs = before ++ b :: after ∧ nm ∈ names_of b name_tag
    ∧ Forall (λ x, nm ∉ names_of x name_tag) before.
Proof.
  induction bs as [|x bs IH]; cbn [first_definer]; [done|].
  destruct (decide (nm ∈ names_of x name_tag)) as [Hin|Hout].
  - intros [= ->]. by exists [], bs.
  - intros Hb. destruct (IH Hb) as (before & after & -> & Hin & Hall).
    exists (x :: before), after. split; [done|]. split; [done|].
    by constructor.
Qed.

Lemma find_read_ddl1_blocks bs : ∀ d nm,
  find (foldl read_ddl1_block d bs) nm = keeps_first d nm "_name" bs.
Proof.
  unfold keeps_first.
  induction bs as [|b bs IH]; intros d nm; cbn [foldl first_definer].
  - by destruct (find d nm).
  - rewrite IH, find_read_ddl1_block. destruct (find d nm); [done|].
    by destruct (decide (nm ∈ names_of b "_name")).
Qed.

Lemma find_read_ddl2_items its : ∀ d nm,
  find (foldl read_ddl2_item d its) nm
  = keeps_first d nm "_item.name" (frames (mkBlock "" its)).
Proof.
  unfold keeps_first, frames. cbn [items].
  induction its as [|item its IH]; intros d nm; cbn [foldl omap list_omap].
  - by destruct (find d nm).
  - rewrite IH. destruct item as [tg v|tags values|f]; cbn [read_ddl2_item].
    + repeat case_decide; by rewrite ?find_set_dict_version, ?find_set_dict_name.
    + done.
    + rewrite find_add_to_index. cbn [first_definer].
      destruct (find d nm); [done|].
      by destruct (decide (nm ∈ names_of f "_item.name")).
Qed.

Lemma find_read_ddl2_blocks bs : ∀ d nm,
  find (foldl (λ d' block, foldl read_ddl2_item d' (items block)) d bs) nm
  = keeps_first d nm "_item.name" (bs ≫= frames).
Proof.
  induction bs as [|b bs IH]; intros d nm; cbn [foldl].
  - unfold keeps_first. by destruct (find d nm).
  - rewrite IH. unfold keeps_first at 1. rewrite find_read_ddl2_items.
    unfold keeps_first. rewrite bind_cons, first_definer_app.
    destruct b as [n its]. unfold frames. cbn [items].
    destruct (find d nm); [done|]. by destruct (first_definer _ _ _).
Qed.

(** The members that the two readers leave as [open_file] set them. *)
Lemma add_to_index_keeps b tag d :
  version_ (add_to_index b tag d) = version_ d
  ∧ sep_ (add_to_index b tag d) = sep_ d
  ∧ ddl_ (add_to_index b tag d) = ddl_ d.
Proof. by rewrite add_to_index_spec. Qed.

Lemma read_ddl1_block_keeps d b :
  version_ (read_ddl1_block d b) = version_ d
  ∧ sep_ (read_ddl1_block d b) = sep_ d
  ∧ ddl_ (read_ddl1_block d b) = ddl_ d.
Proof.
  unfold read_ddl1_block.
  destruct (decide _), (find_value b "_dictionary_name"),
    (find_value b "_dictionary_version"); cbn; apply add_to_index_keeps.
Qed.

Lemma read_ddl2_item_keeps d item :
  version_ (read_ddl2_item d item) = version_ d
  ∧ sep_ (read_ddl2_item d item) = sep_ d
  ∧ ddl_ (read_ddl2_item d item) = ddl_ d.
Proof.
  destruct item; cbn [read_ddl2_item]; [|done|apply add_to_index_keeps].
  by repeat case_decide.
Qed.

Lemma foldl_keeps {A} (step : DDL → A → DDL) :
  (∀ d x, version_ (step d x) = version_ d ∧ sep_ (step d x) = sep_ d
          ∧ ddl_ (step d x) = ddl_ d) →
  ∀ xs d, version_ (foldl step d xs) = version_ d
          ∧ sep_ (foldl step d xs) = sep_ d
          ∧ ddl_ (foldl step d xs) = ddl_ d.
Proof.
  intros Hstep. induction xs as [|x xs IH]; intros d; [done|].
  cbn [foldl]. destruct (IH (step d x)) as (-> & -> & ->). apply Hstep.
Qed.

Lemma open_file_keeps doc d :
  let d1 := mkDDL (if decide (1 < length (blocks doc))%nat then 1 else 2) doc
              (name_index_ d) (dict_name_ d) (dict_version_ d)
              (if decide (1 < length (blocks doc))%nat then "_" else ".") in
  version_ (open_file doc d) = version_ d1 ∧ sep_ (open_file doc d) = sep_ d1
  ∧ ddl_ (open_file doc d) = doc.
Proof.
  unfold open_file. cbn [version_].
  destruct (decide (1 < length (blocks doc))%nat).
  - rewrite !decide_True by done. unfold read_ddl1.
    apply (foldl_keeps read_ddl1_block read_ddl1_block_keeps).
  - rewrite !decide_False by done. unfold read_ddl2.
    apply (foldl_keeps (λ d' block, foldl read_ddl2_item d' (items block))).
    intros d' x. apply (foldl_keeps read_ddl2_item read_ddl2_item_keeps).
Qed.

(** Claim C1, as amended.  After [open_file] on a fresh [DDL], a name
    is mapped to the first block, in the order in which the dictionary
    is read, that carries it: the blocks with their [_name] values for
    a DDL1 dictionary, the save frames with their [_item.name] values
    for a DDL2 one.  A later definition of the same name does not
    replace it.  [first_definer] is the earliest carrier: no block
    before it carries the name. *)
Theorem C1_index_keeps_the_first_definition doc garbage nm :
  let first :=
    if decide (1 < length (blocks doc))%nat
    then first_definer nm "_name" (blocks doc)
    else first_definer nm "_item.name" (blocks doc ≫= frames) in
  find (open_file doc (DDL_default garbage)) nm = first
  ∧ (∀ d, find (open_file doc d) nm
          = match find d nm with Some b => Some b | None => first end)
  ∧ (∀ name_tag bs b,
       first_definer nm name_tag bs = Some b →
       ∃ before after,
         bs = before ++ b :: after ∧ nm ∈ names_of b name_tag
         ∧ Forall (λ x, nm ∉ names_of x name_tag) before).
Proof.
  cbv zeta.
  assert (Hgen : ∀ d, find (open_file doc d) nm
            = match find d nm with
              | Some b => Some b
              | None =>
                  if decide (1 < length (blocks doc))%nat
                  then first_definer nm "_name" (blocks doc)
                  else first_definer nm "_item.name" (blocks doc ≫= frames)
              end).
  { intros d. unfold open_file. cbn [version_].
    destruct (decide (1 < length (blocks doc))%nat).
    - rewrite !decide_True by done. unfold read_ddl1. cbn [ddl_].
      by rewrite find_read_ddl1_blocks.
    - rewrite !decide_False by done. unfold read_ddl2. cbn [ddl_].
      by rewrite find_read_ddl2_blocks. }
  split; [by rewrite Hgen|]. split; [done|].
  intros name_tag bs b. apply first_definer_first.
Qed.

(** Claim C5, as amended.  After [open_file] the dialect is DDL1
    exactly when the document has more than one block and DDL2 exactly
    when it has at most one (one block or none); the separator is
    ["_"] for DDL1 and ["."] for DDL2, and it is the one
    [check_audit_conform] builds its tags with. *)
Theorem C5_dialect_by_block_count doc d :
  let d' := open_file doc d in
  (version_ d' = 1 ↔ (1 < length (blocks doc))%nat)
  ∧ (version_ d' = 2 ↔ (length (blocks doc) ≤ 1)%nat)
  ∧ (version_ d' = 1 → sep_ d' = "_")
  ∧ (version_ d' = 2 → sep_ d' = ".")
  ∧ (∀ c msg, check_audit_conform d' c msg
       = check_audit_conform_blocks d'
           ("_audit_conform" +:+ (if decide (1 < length (blocks doc))%nat
                                  then "_" else "."))
           (blocks c) msg).
Proof.
  cbv zeta. destruct (open_file_keeps doc d) as (Hv & Hs & _).
  cbn [version_ sep_] in Hv, Hs.
  unfold check_audit_conform. rewrite Hv, Hs.
  destruct (decide (1 < length (blocks doc))%nat); repeat split; try done; lia.
Qed.






End Facts.

(** Claim C1 as it was stated fails on a dictionary that defines
    [_cell_length_a] in two blocks: the index holds the earlier one. *)
Lemma C1_counterexample :
  find sample_ddl "_cell_length_a" = Some sample_cell_block
  ∧ find sample_ddl "_cell_length_a" ≠ Some sample_cell_again
  ∧ "_cell_length_a" ∈ @names_of sample_lexicon sample_cell_block "_name"
  ∧ "_cell_length_a" ∈ @names_of sample_lexicon sample_cell_again "_name"
  ∧ sample_dictionary.(blocks) !! 1%nat = Some sample_cell_block
  ∧ sample_dictionary.(blocks) !! 3%nat = Some sample_cell_again.
Proof.
  assert (E : find sample_ddl "_cell_length_a" = Some sample_cell_block)
    by (vm_compute; reflexivity).
  split; [done|]. split; [by rewrite E|].
  split; [vm_compute; left|]. split; [vm_compute; left|]. done.
Qed.

(** Claim C5 as it was stated fails on a dictionary file with no block:
    the dialect is DDL2 although the document does not have exactly
    one block. *)
Lemma C5_counterexample :
  version_ (@open_file sample_lexicon sample_empty (DDL_default 0)) = 2
  ∧ length (blocks sample_empty) ≠ 1%nat.
Proof. split; [reflexivity|discriminate]. Qed.

End DictionaryFacts.

(** ** Comparisons of [float]s *)
Module FloatFacts.
Import Cif Ddl.



Lemma float_lt_nan_l y : float_lt S754_nan y = false.
Proof. done. Qed.

Lemma float_lt_nan_r x : float_lt x S754_nan = false.
Proof. by destruct x. Qed.




End FloatFacts.

(** ** The DDL1 type checker *)
Module CheckerFacts.
Import Cif Ddl FloatFacts.




Section Facts.
Context `{!Lexicon} `{!Indeterminate}.

Import TypeCheckDDL1.

(** The loop over [_enumeration] appends to [enumeration_] and leaves
    the other members alone. *)
Lemma read_enumeration_spec b tc :
  read_enumeration b tc
  = set_enumeration
      (enumeration_ tc ++ (as_string <$> find_loop b "_enumeration")) tc.
Proof.
  unfold read_enumeration. generalize (find_loop b "_enumeration") as l.
  intros l. revert tc.
  induction l as [|e l IH]; intros tc; cbn [foldl fmap list_fmap].
  - rewrite app_nil_r. by destruct tc.
  - rewrite IH. unfold set_enumeration. cbn. by rewrite <- app_assoc.
Qed.

(** [_list] alone decides [is_list]. *)
Lemma from_block_is_list b :
  is_list (from_block b default)
  = match find_value b "_list" with
    | Some list =>
        if decide (list = "yes") then Yes
        else if decide (list = "no") then No else Unset
    | None => Unset
    end.
Proof.
  unfold is_list, from_block.
  destruct (find_value b "_enumeration_range") as [range|];
    [destruct (str_find ":" range)|];
    rewrite ?read_enumeration_spec;
    destruct (find_value b "_type_conditions"), (find_value b "_type"),
      (find_value b "_list") as [list|]; try done; cbn;
    repeat case_decide; done.
Qed.




Lemma validate_enumeration_null v en m :
  is_null v = true → validate_enumeration v en m = (true, m).
Proof.
  intros Hv. unfold validate_enumeration. by rewrite Hv, orb_true_r.
Qed.

Lemma validate_enumeration_empty v m : validate_enumeration v [] m = (true, m).
Proof. done. Qed.

End Facts.
End CheckerFacts.

(** ** [DDL::validate] *)
Module ValidateFacts.
Import Cif Ddl Expected Precision ValidatorSamples FloatFacts CheckerFacts.

Section Facts.
Context `{!Lexicon} `{!Indeterminate}.

Lemma steady_validate_enumeration en : steady (λ v m, validate_enumeration v en m).
Proof.
  intros v. unfold validate_enumeration.
  destruct (_ || _ || _); [left|right]; [done|]. by eexists.
Qed.

Lemma steady_DDL1 tc : steady (TypeCheckDDL1.validate_value tc).
Proof.
  intros v. unfold TypeCheckDDL1.validate_value, fail.
  destruct (steady_validate_enumeration (TypeCheckDDL1.enumeration_ tc) v) as [He|He].
  - destruct (decide _); [|by left].
    destruct (_ && _); [right; by eexists|].
    destruct (TypeCheckDDL1.has_range_ tc); [|by left].
    destruct (_ || _); [right; by eexists|by left].
  - destruct (decide _); [|by right].
    destruct (_ && _); [right; by eexists|].
    destruct (TypeCheckDDL1.has_range_ tc); [|by right].
    destruct (_ || _); [right; by eexists|by right].
Qed.

Lemma steady_DDL2 tc : steady (TypeCheckDDL2.validate_value tc).
Proof. apply steady_validate_enumeration. Qed.

Lemma validate_and_report_pass check c b item v st :
  (∀ m, check v (Some m) = (true, Some m)) →
  validate_and_report check c b item v st = st.
Proof. intros Hok. unfold validate_and_report. rewrite Hok. by destruct st. Qed.

Lemma report_validate_and_report check c b item v st :
  steady check →
  report (validate_and_report check c b item v st)
  = report st ++ value_report check b item v.
Proof.
  intros Hs. unfold validate_and_report, value_report.
  destruct (Hs v) as [Hok|[text Hno]].
  - rewrite !Hok. cbn. by rewrite app_nil_r.
  - by rewrite !Hno.
Qed.

Lemma report_validate_values check c b item vs : ∀ st,
  steady check →
  report (foldl (λ s v, validate_and_report check c b item v s) st vs)
  = report st ++ (vs ≫= value_report check b item).
Proof.
  induction vs as [|v vs IH]; intros st Hs; cbn [foldl].
  - by rewrite app_nil_r.
  - rewrite IH, report_validate_and_report by done.
    by rewrite bind_cons, app_assoc.
Qed.

Lemma report_foldl {X} (f : Run → X → Run) xs : ∀ st,
  additive f →
  report (foldl f st xs) = report st ++ (xs ≫= λ x, report (f fresh x)).
Proof.
  induction xs as [|x xs IH]; intros st Hf; cbn [foldl].
  - by rewrite app_nil_r.
  - rewrite IH, Hf by done. by rewrite bind_cons, app_assoc.
Qed.

Lemma additive_foldl {X} (f : Run → X → Run) :
  additive f → additive (λ st xs, foldl f st xs).
Proof.
  intros Hf st xs. rewrite !report_foldl by done. done.
Qed.

Lemma report_validate_scalar d c b item tg v st :
  report (validate_scalar d c b item tg v st)
  = report st ++
    match find d tg with
    | None => []
    | Some db =>
        if decide (version_ d = 1) then
          let tc := TypeCheckDDL1.from_block db TypeCheckDDL1.default in
          (if decide (TypeCheckDDL1.is_list tc = Yes)
           then [mkFailure b item (tg +:+ " must be a list")] else [])
          ++ value_report (TypeCheckDDL1.validate_value tc) b item v
        else
          value_report (TypeCheckDDL2.validate_value
                          (TypeCheckDDL2.from_block db TypeCheckDDL2.default))
                       b item v
    end.
Proof.
  unfold validate_scalar. destruct (find d tg) as [db|].
  - destruct (decide (version_ d = 1)); cbv zeta.
    + rewrite report_validate_and_report by apply steady_DDL1.
      destruct (decide _); cbn [report cif_fail]; by rewrite <- ?app_assoc.
    + by rewrite report_validate_and_report by apply steady_DDL2.
  - cbn. by rewrite app_nil_r.
Qed.

Lemma report_validate_column d c b item tags values st i :
  report (validate_column d c b item tags values st i)
  = report st ++
    match find d (default "" (tags !! i)) with
    | None => []
    | Some db =>
        if decide (version_ d = 1) then
          let tc := TypeCheckDDL1.from_block db TypeCheckDDL1.default in
          (if decide (TypeCheckDDL1.is_list tc = No)
           then [mkFailure b item (default "" (tags !! i) +:+ " in list")] else [])
          ++ (stride i (length tags) values
                ≫= value_report (TypeCheckDDL1.validate_value tc) b item)
        else
          stride i (length tags) values
            ≫= value_report (TypeCheckDDL2.validate_value
                               (TypeCheckDDL2.from_block db TypeCheckDDL2.default))
                            b item
    end.
Proof.
  unfold validate_column. cbv zeta. destruct (find d _) as [db|].
  - destruct (decide (version_ d = 1)).
    + rewrite report_validate_values by apply steady_DDL1.
      destruct (decide _); cbn [report cif_fail]; by rewrite <- ?app_assoc.
    + by rewrite report_validate_values by apply steady_DDL2.
  - cbn. by rewrite app_nil_r.
Qed.

Lemma additive_validate_column d c b item tags values :
  additive (validate_column d c b item tags values).
Proof.
  intros st i. by rewrite (report_validate_column _ _ _ _ _ _ fresh),
    report_validate_column.
Qed.

Lemma additive_validate_item d c b : additive (validate_item d c b).
Proof.
  intros st item. destruct item as [tg v|tags values|f]; cbn [validate_item].
  - by rewrite (report_validate_scalar _ _ _ _ _ _ fresh), report_validate_scalar.
  - apply (additive_foldl _ (additive_validate_column d c b _ tags values)).
  - cbn. by rewrite app_nil_r.
Qed.

Lemma additive_validate_block d c : additive (validate_block d c).
Proof.
  intros st b. unfold validate_block.
  apply (additive_foldl _ (additive_validate_item d c b)).
Qed.

Lemma report_validate_from d c st :
  report (validate_from d c st)
  = report st ++ (blocks c ≫= λ b, items b ≫= item_report d c b).
Proof.
  unfold validate_from. rewrite report_foldl by apply additive_validate_block.
  f_equal. apply list_bind_ext; [|done]. intros b.
  unfold validate_block. rewrite report_foldl by apply additive_validate_item.
  done.
Qed.

(** *** The report of [validate], item by item *)

Lemma item_report_failures d c b item :
  item_report d c b item = item_failures d b item.
Proof.
  unfold item_report.
  destruct item as [tg v|tags values|f]; cbn [validate_item item_failures].
  - rewrite report_validate_scalar. cbn [report fresh app].
    unfold occurrence_failures, checker.
    destruct (find d tg) as [db|]; [|done].
    destruct (decide (version_ d = 1)) as [Hd|Hd]; cbv zeta.
    + cbn [forbidden cardinality_text].
      change ([v] ≫= ?f) with (f v ++ []). rewrite app_nil_r.
      destruct (decide (TypeCheckDDL1.is_list _ = Yes)) as [Hl|Hl].
      * by rewrite decide_True.
      * rewrite decide_False; [done|]. by intros [_ ?].
    + rewrite decide_False by (by intros [? _]).
      change ([v] ≫= ?f) with (f v ++ []). by rewrite app_nil_r.
  - rewrite report_foldl by apply additive_validate_column.
    cbn [report fresh app]. apply list_bind_ext; [|done]. intros i.
    rewrite report_validate_column. cbn [report fresh app].
    unfold occurrence_failures, checker.
    destruct (find d _) as [db|]; [|done].
    destruct (decide (version_ d = 1)) as [Hd|Hd]; cbv zeta.
    + cbn [forbidden cardinality_text].
      destruct (decide (TypeCheckDDL1.is_list _ = No)) as [Hl|Hl].
      * by rewrite decide_True.
      * rewrite decide_False; [done|]. by intros [_ ?].
    + by rewrite decide_False by (by intros [? _]).
  - done.
Qed.

Lemma report_validate_document d c unknown :
  report (validate d c unknown) = document_failures d c.
Proof.
  unfold validate. rewrite report_validate_from. cbn [report app].
  unfold document_failures, block_failures.
  apply list_bind_ext; [|done]. intros b.
  apply list_bind_ext; [|done]. intros item. apply item_report_failures.
Qed.

(** Under DDL1 the failures due for an occurrence are those of the
    cardinality rule followed by those of the values. *)
Lemma occurrence_failures_ddl1 d b item pos tg values :
  version_ d = 1 →
  occurrence_failures d b item pos tg values
  = cardinality_failures d b item pos tg ++ value_failures d b item tg values.
Proof.
  intros Hd.
  unfold occurrence_failures, cardinality_failures, value_failures,
    list_attribute, checker.
  destruct (find d tg) as [db|]; cbn [mbind option_bind].
  - rewrite (decide_True (P := version_ d = 1)) by done.
    f_equal. rewrite from_block_is_list.
    destruct pos; cbn [forbidden cardinality_text];
      destruct (find_value db "_list") as [list|];
      try (destruct (decide (list = "yes")) as [->|Hy]);
      try (destruct (decide (list = "no")) as [->|Hn]);
      try (rewrite (decide_True (P := _ ∧ _)) by done);
      try (rewrite (decide_False (P := _ ∧ _)) by (by intros [_ ?]));
      try (rewrite (decide_True (P := Some _ = Some _)) by done);
      try (rewrite (decide_False (P := _ = Some _)) by congruence);
      done.
  - by destruct pos.
Qed.

Lemma item_failures_ddl1 d b item :
  version_ d = 1 → item_failures d b item = ddl1_item_failures d b item.
Proof.
  intros Hd. destruct item as [tg v|tags values|f];
    cbn [item_failures ddl1_item_failures]; [| |done].
  - by apply occurrence_failures_ddl1.
  - apply list_bind_ext; [|done]. intros i. by apply occurrence_failures_ddl1.
Qed.

(** Claim C3, as amended.  Under a DDL1 dictionary [validate] reports
    for the items that stand directly in the blocks of the document,
    in document order, and for nothing else (the items inside a save
    frame are passed over): for a scalar its cardinality failure, if
    any, and the failure of its value; for a loop the same for each
    column in turn.  A tag whose defining block gives [_list] as the
    bare word [yes] gets the cardinality failure as a scalar and none
    as a column; with the bare word [no] it gets one as a column and
    none as a scalar; with no [_list], or with any other text, the
    quoted ['yes'] among them, it gets none in either position.  So
    the failure of a [yes] tag is in the report for each of its scalars
    that stands in a block, and that of a [no] tag for each loop of a
    block that has it as a column. *)
Theorem C3_list_governs_cardinality_of_direct_items d c unknown :
  version_ d = 1 →
  report (validate d c unknown)
  = blocks c ≫= (λ b, items b ≫= ddl1_item_failures d b)
  ∧ (∀ b item tg db,
       find d tg = Some db →
       (find_value db "_list" = Some "yes" →
        cardinality_failures d b item AsScalar tg
        = [mkFailure b item (tg +:+ " must be a list")]
        ∧ cardinality_failures d b item AsColumn tg = [])
       ∧ (find_value db "_list" = Some "no" →
          cardinality_failures d b item AsScalar tg = []
          ∧ cardinality_failures d b item AsColumn tg
            = [mkFailure b item (tg +:+ " in list")])
       ∧ (find_value db "_list" ≠ Some "yes" →
          find_value db "_list" ≠ Some "no" →
          cardinality_failures d b item AsScalar tg = []
          ∧ cardinality_failures d b item AsColumn tg = []))
  ∧ (∀ b f, ddl1_item_failures d b (Frame f) = [])
  ∧ (∀ b tg v db,
       b ∈ blocks c → Value tg v ∈ items b →
       find d tg = Some db → find_value db "_list" = Some "yes" →
       mkFailure b (Value tg v) (tg +:+ " must be a list")
       ∈ report (validate d c unknown))
  ∧ (∀ b tags values i tg db,
       b ∈ blocks c → Loop tags values ∈ items b → tags !! i = Some tg →
       find d tg = Some db → find_value db "_list" = Some "no" →
       mkFailure b (Loop tags values) (tg +:+ " in list")
       ∈ report (validate d c unknown)).
Proof.
  intros Hd.
  assert (E : report (validate d c unknown)
              = blocks c ≫= (λ b, items b ≫= ddl1_item_failures d b)).
  { rewrite report_validate_document. unfold document_failures, block_failures.
    apply list_bind_ext; [|done]. intros b.
    apply list_bind_ext; [|done]. intros item. by apply item_failures_ddl1. }
  assert (Hin : ∀ b item f, b ∈ blocks c → item ∈ items b →
            f ∈ ddl1_item_failures d b item → f ∈ report (validate d c unknown)).
  { intros b item f Hb Hitem Hf. rewrite E.
    apply list_elem_of_bind. exists b. split; [|done].
    apply list_elem_of_bind. by exists item. }
  split; [done|]. split; [|split; [done|split]].
  - intros b item tg db Hdb.
    unfold cardinality_failures, list_attribute. rewrite Hdb.
    cbn [mbind option_bind].
    split; [|split].
    + intros ->. by rewrite decide_True, decide_False.
    + intros ->. by rewrite decide_False, decide_True.
    + intros Hy Hn. by rewrite !decide_False.
  - intros b tg v db Hb Hitem Hdb Hlist.
    apply (Hin b (Value tg v)); [done|done|].
    cbn [ddl1_item_failures]. apply elem_of_app. left.
    unfold cardinality_failures, list_attribute. rewrite Hdb.
    cbn [mbind option_bind]. rewrite Hlist, decide_True by done. left.
  - intros b tags values i tg db Hb Hitem Htag Hdb Hlist.
    apply (Hin b (Loop tags values)); [done|done|].
    cbn [ddl1_item_failures]. apply list_elem_of_bind. exists i. split.
    + rewrite Htag. cbn [default from_option]. change (id tg) with tg.
      apply elem_of_app. left.
      unfold cardinality_failures, list_attribute. rewrite Hdb.
      cbn [mbind option_bind]. rewrite Hlist, decide_True by done. left.
    + apply elem_of_seq. apply lookup_lt_Some in Htag. lia.
Qed.


(** Claim C6, as amended.  [validate] reports, in document order, the
    failures due for every item that stands directly in a block of the
    document: for every scalar and for every column of every loop the
    cardinality failure, if any, and one failure for each value its
    check rejects; a save frame is passed over with all it holds.  What
    is reported for an item does not depend on what was reported before
    it: the failures of the blocks and items before it come first,
    those of the items and blocks after it follow.  So a value that
    fails its check is reported wherever it stands among the items of a
    block, as a scalar or as a cell of a loop. *)
Theorem C6_validate_reports_every_direct_item d c unknown :
  report (validate d c unknown) = document_failures d c
  ∧ (∀ bs1 b bs2 its1 item its2,
       blocks c = bs1 ++ b :: bs2 → items b = its1 ++ item :: its2 →
       report (validate d c unknown)
       = (bs1 ≫= block_failures d)
         ++ ((its1 ≫= item_failures d b) ++ item_failures d b item
             ++ (its2 ≫= item_failures d b))
         ++ (bs2 ≫= block_failures d))
  ∧ (∀ b item tg v db text,
       b ∈ blocks c → item ∈ items b → item = Value tg v →
       find d tg = Some db → checker d db v (Some "") = (false, Some text) →
       mkFailure b item text ∈ report (validate d c unknown))
  ∧ (∀ b item tags values i tg v db text,
       b ∈ blocks c → item ∈ items b → item = Loop tags values →
       tags !! i = Some tg → v ∈ stride i (length tags) values →
       find d tg = Some db → checker d db v (Some "") = (false, Some text) →
       mkFailure b item text ∈ report (validate d c unknown))
  ∧ (∀ b f, item_failures d b (Frame f) = []).
Proof.
  assert (Hin : ∀ b item f, b ∈ blocks c → item ∈ items b →
            f ∈ item_failures d b item → f ∈ document_failures d c).
  { intros b item f Hb Hitem Hf. unfold document_failures, block_failures.
    apply list_elem_of_bind. exists b. split; [|done].
    apply list_elem_of_bind. by exists item. }
  assert (Hval : ∀ b item db (vs : list string) v text,
            v ∈ vs → checker d db v (Some "") = (false, Some text) →
            mkFailure b item text ∈ vs ≫= value_report (checker d db) b item).
  { intros b item db vs v text Hv Hcheck.
    apply list_elem_of_bind. exists v. split; [|done].
    unfold value_report. rewrite Hcheck. cbn. left. }
  rewrite report_validate_document.
  split; [done|]. split; [|split; [|split; [|done]]].
  - intros bs1 b bs2 its1 item its2 Hc Hb.
    unfold document_failures. rewrite Hc, bind_app, bind_cons.
    f_equal. f_equal. unfold block_failures at 1.
    by rewrite Hb, bind_app, bind_cons.
  - intros b item tg v db text Hb Hitem -> Hdb Hcheck.
    apply (Hin b (Value tg v)); [done|done|].
    cbn [item_failures]. unfold occurrence_failures. rewrite Hdb.
    apply elem_of_app. right. apply (Hval _ _ _ _ v); [left|done].
  - intros b item tags values i tg v db text Hb Hitem -> Htag Hv Hdb Hcheck.
    apply (Hin b (Loop tags values)); [done|done|].
    cbn [item_failures]. apply list_elem_of_bind. exists i. split.
    + rewrite Htag. cbn [default from_option]. unfold occurrence_failures.
      change (id tg) with tg. rewrite Hdb.
      apply elem_of_app. right. by apply (Hval _ _ _ _ v).
    + apply elem_of_seq. apply lookup_lt_Some in Htag. lia.
Qed.

End Facts.

(** The sample dictionary gives [_atom_site_label] the [_list] text
    [yes]; the tag met as a scalar in a block. *)
Lemma C3_witness :
  report (@validate sample_lexicon sample_indeterminate sample_ddl
            sample_scalar_subject None)
  = [mkFailure (mkBlock "1ABC" [sample_label_item]) sample_label_item
       "_atom_site_label must be a list"].
Proof.
  etrans.
  - apply (@C3_list_governs_cardinality_of_direct_items
             sample_lexicon sample_indeterminate sample_ddl
             sample_scalar_subject None).
    vm_compute. reflexivity.
  - vm_compute. reflexivity.
Defined.

(** Claim C3 as it was stated fails on two inputs.  A tag of [_list]
    [yes] met as a scalar inside a save frame of a block is reported
    nothing: [validate] does not look into frames.  A dictionary that
    writes the word in quotes, ['yes'], sets no cardinality: the text
    of [_list] is compared as it stands in the file. *)
Lemma C3_counterexample :
  (version_ sample_ddl = 1
   ∧ find sample_ddl "_atom_site_label" = Some sample_label_block
   ∧ find_value sample_label_block "_list" = Some "yes"
   ∧ report (@validate sample_lexicon sample_indeterminate sample_ddl
               sample_framed_subject None) = [])
  ∧ (version_ sample_quoted_ddl = 1
     ∧ find sample_quoted_ddl "_atom_site_label" = Some sample_quoted_label_block
     ∧ @as_string sample_lexicon
         <$> find_value sample_quoted_label_block "_list" = Some "yes"
     ∧ report (@validate sample_lexicon sample_indeterminate sample_quoted_ddl
                 sample_scalar_subject None) = []).
Proof. vm_compute. repeat split. Qed.



(** Claim C6 as it was stated fails on items held by a save frame: the
    block that is reported three failures and one unknown tag when it
    stands in the document is reported nothing, and no unknown tag,
    when it is the save frame of a block. *)
Lemma C6_counterexample :
  sample_failing_block ∈ frames (mkBlock "1ABC" [Frame sample_failing_block])
  ∧ @validate sample_lexicon sample_indeterminate sample_ddl
      sample_failing_in_frame (Some [])
    = mkRun "" (Some []) []
  ∧ failure_message
      <$> report (@validate sample_lexicon sample_indeterminate sample_ddl
                    sample_failing_directly (Some []))
    = ["expected number"; "_cell_length_a in list";
       "value out of expected range: 7"]
  ∧ unknown_tags (@validate sample_lexicon sample_indeterminate sample_ddl
                    sample_failing_directly (Some []))
    = Some ["_cell_length_b"].
Proof. split; [left|]. vm_compute. repeat split. Qed.

End ValidateFacts.

(** ** Null values *)
Module NullFacts.
Import Cif Ddl CheckerFacts FloatFacts.
Section Facts.
Context `{!Lexicon} `{!Indeterminate}.

(** Property X20.  A null value is never rejected by the type check
    nor by the enumeration check of either checker: [validate_value] of
    DDL2 and [validate_enumeration] accept it, and [validate_value] of
    DDL1 accepts it unless the tag is of type [numb] with a range and
    the [float] that [as_number] gives for the marker lies below the
    low bound or above the high bound, the only case in which it fails,
    with the out-of-range text; the range check has no test of
    [is_null].  A marker that converts to NaN passes. *)
Theorem null_values_meet_the_range_check_only v :
  is_null v = true →
  (∀ en m, validate_enumeration v en m = (true, m))
  ∧ (∀ tc m, TypeCheckDDL2.validate_value tc v m = (true, m))
  ∧ (∀ tc m,
       TypeCheckDDL1.validate_value tc v m
       = if bool_decide (TypeCheckDDL1.is_numb_ tc = Yes)
            && TypeCheckDDL1.has_range_ tc
            && (float_lt (narrow (as_number v)) (TypeCheckDDL1.range_low_ tc)
                || float_lt (TypeCheckDDL1.range_high_ tc) (narrow (as_number v)))
         then (false, assign m ("value out of expected range: " +:+ v))
         else (true, m))
  ∧ (narrow (as_number v) = S754_nan →
     ∀ tc m, TypeCheckDDL1.validate_value tc v m = (true, m)).
Proof.
  intros Hv.
  assert (He : ∀ en m, validate_enumeration v en m = (true, m))
    by (intros en m; by apply validate_enumeration_null).
  assert (H1 : ∀ tc m,
       TypeCheckDDL1.validate_value tc v m
       = if bool_decide (TypeCheckDDL1.is_numb_ tc = Yes)
            && TypeCheckDDL1.has_range_ tc
            && (float_lt (narrow (as_number v)) (TypeCheckDDL1.range_low_ tc)
                || float_lt (TypeCheckDDL1.range_high_ tc) (narrow (as_number v)))
         then (false, assign m ("value out of expected range: " +:+ v))
         else (true, m)).
  { intros tc m. unfold TypeCheckDDL1.validate_value, fail.
    rewrite Hv, He. cbn [negb andb].
    destruct (decide (TypeCheckDDL1.is_numb_ tc = Yes)) as [Hn|Hn].
    - rewrite bool_decide_eq_true_2 by done. cbn [andb].
      by destruct (TypeCheckDDL1.has_range_ tc).
    - by rewrite bool_decide_eq_false_2 by done. }
  split; [done|]. split; [intros tc m; apply He|]. split; [done|].
  intros Hnan tc m. rewrite H1, Hnan, float_lt_nan_l, float_lt_nan_r.
  by rewrite andb_false_r.
Qed.

End Facts.

(** The null marker [?] against the numeric tag with the range [1:5],
    under a lexicon that converts it to NaN. *)
Lemma null_values_witness :
  @TypeCheckDDL1.validate_value sample_lexicon
    (@TypeCheckDDL1.from_block sample_lexicon sample_cell_block
       (@TypeCheckDDL1.default sample_indeterminate)) "?" (Some "")
  = (true, Some "").
Proof.
  exact (proj2 (proj2 (proj2 (@null_values_meet_the_range_check_only
           sample_lexicon "?" eq_refl))) eq_refl _ _).
Defined.

End NullFacts.

(** ** Strings *)
Module StringFacts.

Lemma str_app_cons x (a b : string) : String x a +:+ b = String x (a +:+ b).
Proof. reflexivity. Qed.

Lemma str_app_nil_l (a : string) : "" +:+ a = a.
Proof. reflexivity. Qed.

Lemma str_app_assoc (a b c : string) : (a +:+ b) +:+ c = a +:+ b +:+ c.
Proof.
  induction a as [|x a IH]; [done|]. by rewrite !str_app_cons, IH.
Qed.

Lemma str_app_nil_r (a : string) : a +:+ "" = a.
Proof.
  induction a as [|x a IH]; [done|]. by rewrite str_app_cons, IH.
Qed.

Lemma str_app_length (a b : string) :
  String.length (a +:+ b) = (String.length a + String.length b)%nat.
Proof.
  induction a as [|x a IH]; [done|].
  rewrite str_app_cons. cbn [String.length]. by rewrite IH.
Qed.

End StringFacts.

(** ** [str_join] *)
Module JoinFacts.
Import Binding StringFacts.

Lemma concat_empty_cons x xs :
  String.concat "" (x :: xs) = x +:+ String.concat "" xs.
Proof. destruct xs; cbn [String.concat]; [by rewrite str_app_nil_r|done]. Qed.

Lemma concat_cons sep x y xs :
  String.concat sep (x :: y :: xs) = x +:+ sep +:+ String.concat sep (y :: xs).
Proof. done. Qed.

Lemma str_join_from r l sep :
  (foldl (str_join_step sep) (r, false) l).1
  = r +:+ String.concat "" ((λ i, sep +:+ i) <$> l).
Proof.
  revert r. induction l as [|i l IH]; intros r; cbn [foldl fmap list_fmap].
  - cbn [String.concat fst]. by rewrite str_app_nil_r.
  - cbn [str_join_step]. rewrite IH, concat_empty_cons.
    by rewrite !str_app_assoc.
Qed.

Lemma concat_separated sep i l :
  i +:+ String.concat "" ((λ j, sep +:+ j) <$> l) = String.concat sep (i :: l).
Proof.
  revert i. induction l as [|j l IH]; intros i; cbn [fmap list_fmap].
  - cbn [String.concat]. by rewrite str_app_nil_r.
  - rewrite concat_empty_cons, concat_cons, <- IH.
    by rewrite !str_app_assoc.
Qed.

(** Property X9.  [str_join] puts the separator between the elements
    and nowhere else: it is the concatenation with separator of the
    standard library; the join of an element and a non-empty rest is
    the element, the separator and the join of the rest; the join of
    no element is empty, and that of one element is the element. *)
Theorem str_join_is_concat iterable sep :
  str_join iterable sep = String.concat sep iterable
  ∧ (∀ i rest, rest ≠ [] →
       str_join (i :: rest) sep = i +:+ sep +:+ str_join rest sep)
  ∧ str_join [] sep = ""
  ∧ (∀ i, str_join [i] sep = i).
Proof.
  assert (E : ∀ l, str_join l sep = String.concat sep l).
  { intros [|i l]; [done|]. unfold str_join. cbn [foldl str_join_step].
    change ("" +:+ i) with i. rewrite str_join_from. apply concat_separated. }
  split; [apply E|]. split; [|split; [done|done]].
  intros i rest Hrest. rewrite !E. by destruct rest.
Qed.

End JoinFacts.

(** ** The search over whole files *)
Module SearchFacts.
Import Grep Chunks GrepFacts.

Lemma find_tag_Some tags tg c :
  Cif.find_tag tags tg = Some c → tags !! c = Some tg.
Proof.
  revert c. induction tags as [|t tags IH]; intros c; cbn [Cif.find_tag]; [done|].
  destruct (decide (t = tg)) as [->|Hne].
  - by intros [= <-].
  - destruct (Cif.find_tag tags tg) as [k|]; [|done].
    intros [= <-]. by apply IH.
Qed.

Lemma find_tag_None tags tg : Cif.find_tag tags tg = None → tg ∉ tags.
Proof.
  induction tags as [|t tags IH]; cbn [Cif.find_tag]; [intros _; apply not_elem_of_nil|].
  destruct (decide (t = tg)) as [->|Hne]; [done|].
  destruct (Cif.find_tag tags tg) as [k|]; [done|].
  intros _. apply not_elem_of_cons. split; [done|by apply IH].
Qed.

Lemma stride_length_bound {A} (vs : list A) skip w :
  (length (Cif.stride skip w vs) ≤ length vs)%nat.
Proof.
  revert skip. induction vs as [|v vs IH]; intros skip; cbn [Cif.stride length]; [lia|].
  destruct skip; cbn [length]; [specialize (IH (w - 1)%nat)|specialize (IH skip)]; lia.
Qed.

Section Facts.
Context `{!Cif.Lexicon}.

(** *** Parameters that are never read *)

Lemma Search_unread r p out mx sm onf inv :
  Search r (set_unread mx sm onf inv p, out)
  = (set_unread mx sm onf inv (Search r (p, out)).1, (Search r (p, out)).2).
Proof.
  destruct p as [st mx0 wf wb wt sm0 onf0 inv0 pc pth bn mv mc tw col cnt].
  destruct r; unfold Search, process_match, finish_processing; simpl;
    repeat case_decide; try done; destruct mv, pc; simpl;
    repeat case_decide; done.
Qed.

Lemma parse_unread rs p out mx sm onf inv :
  parse rs (set_unread mx sm onf inv p, out)
  = (set_unread mx sm onf inv (parse rs (p, out)).1, (parse rs (p, out)).2).
Proof.
  revert p out. induction rs as [|r rs IH]; intros p out; [done|].
  rewrite !parse_cons, Search_unread.
  destruct (Search r (p, out)) as [p' out']. apply IH.
Qed.

(** Property X2.  The members [max_count], [summarize],
    [only_filenames] and [inverse] of [Parameters] are read by no
    action: whatever they are set to before the files are searched, the
    output is the same, and so is every other member at the end. *)
Theorem unread_options_do_not_change_the_search tg files p out mx sm onf inv :
  let run1 := grep_files tg files (p, out) in
  let run2 := grep_files tg files (set_unread mx sm onf inv p, out) in
  run2.2 = run1.2 ∧ run2.1 = set_unread mx sm onf inv run1.1.
Proof.
  cbv zeta.
  assert (E : grep_files tg files (set_unread mx sm onf inv p, out)
              = (set_unread mx sm onf inv (grep_files tg files (p, out)).1,
                 (grep_files tg files (p, out)).2)).
  { revert p out. unfold grep_files.
    induction files as [|[pth rs] files IH]; intros p out; [done|].
    cbn [foldl fst snd].
    assert (E1 : grep_file tg pth rs (set_unread mx sm onf inv p, out)
                 = (set_unread mx sm onf inv (grep_file tg pth rs (p, out)).1,
                    (grep_file tg pth rs (p, out)).2)).
    { unfold grep_file. rewrite <- parse_unread. by destruct p. }
    rewrite E1. destruct (grep_file tg pth rs (p, out)) as [p' out']. apply IH. }
  by rewrite E.
Qed.

(** *** The options are never written *)

Lemma Search_options r p out :
  let p' := (Search r (p, out)).1 in
  options p' = options p ∧ search_tag p' = search_tag p ∧ path p' = path p.
Proof.
  destruct p as [st mx0 wf wb wt sm0 onf0 inv0 pc pth bn mv mc tw col cnt].
  destruct r; unfold Search, process_match, finish_processing; simpl;
    repeat case_decide; try done; destruct mv, pc; simpl;
    repeat case_decide; done.
Qed.

Lemma parse_options rs : ∀ p out,
  let p' := (parse rs (p, out)).1 in
  options p' = options p ∧ search_tag p' = search_tag p ∧ path p' = path p.
Proof.
  induction rs as [|r rs IH]; intros p out; [done|].
  rewrite parse_cons. cbv zeta.
  pose proof (Search_options r p out) as Hstep. cbv zeta in Hstep.
  destruct (Search r (p, out)) as [p1 out1]. cbn [fst] in Hstep.
  destruct (IH p1 out1) as (-> & -> & ->). done.
Qed.

(** Property X3.  The search writes to the working parameters only:
    after any number of files the options ([max_count] and the seven
    flags) are what they were; [search_tag] and [path] are those of the
    last file searched. *)
Theorem search_never_writes_the_options tg files p out :
  let p' := (grep_files tg files (p, out)).1 in
  options p' = options p
  ∧ (∀ pth rs, last files = Some (pth, rs) →
       search_tag p' = tg ∧ path p' = pth).
Proof.
  cbv zeta. revert p out. unfold grep_files.
  induction files as [|[pth rs] files IH] using rev_ind; intros p out.
  - split; [done|]. intros pth rs. by rewrite last_nil.
  - rewrite foldl_app. cbn [foldl fst snd].
    destruct (IH p out) as [Hopt _].
    destruct (foldl (λ s f, grep_file tg f.1 f.2 s) (p, out) files)
      as [p1 out1]. cbn [fst] in Hopt.
    unfold grep_file.
    pose proof (parse_options rs (set_path pth (set_search_tag tg p1)) out1)
      as Hparse. cbv zeta in Hparse.
    destruct Hparse as (Ho & Ht & Hp). split.
    + rewrite Ho, <- Hopt. by destruct p1.
    + intros pth' rs'. rewrite last_snoc. intros [= <- <-].
      rewrite Ht, Hp. by destruct p1.
Qed.

(** *** No match without the tag *)

Lemma Search_quiet r p out :
  ¬ names_tag (search_tag p) r →
  match_value p = false → match_column p = -1 →
  ∃ p', Search r (p, out) = (p', out)
        ∧ search_tag p' = search_tag p ∧ match_value p' = false
        ∧ match_column p' = -1 ∧ counter p' = counter p.
Proof.
  intros Hname Hmv Hmc.
  destruct p as [st mx0 wf wb wt sm0 onf0 inv0 pc pth bn mv mc tw col cnt].
  cbn [search_tag match_value match_column] in *. subst mv mc.
  destruct r; unfold Search; cbn [names_tag] in Hname; fields;
    repeat case_decide; try done; subst;
    try (by exfalso; apply Hname);
    eexists; (split; [reflexivity|done]).
Qed.

(** Property X4.  Productions none of which is the tag searched for
    (as a [tag] or as a [loop_tag]), met with no value awaited and no
    column followed, print nothing, and leave [match_value],
    [match_column] and [counter] as they were. *)
Theorem no_match_without_the_tag rs p out :
  Forall (λ r, ¬ names_tag (search_tag p) r) rs →
  match_value p = false → match_column p = -1 →
  let run := parse rs (p, out) in
  run.2 = out ∧ match_value run.1 = false ∧ match_column run.1 = -1
  ∧ counter run.1 = counter p.
Proof.
  intros Hall. revert p out Hall.
  induction rs as [|r rs IH]; intros p out Hall Hmv Hmc; [done|].
  apply Forall_cons in Hall as [Hr Hall].
  destruct (Search_quiet r p out Hr Hmv Hmc) as (p1 & E & Hst & Hmv1 & Hmc1 & Hc).
  cbv zeta. rewrite parse_cons, E.
  assert (Hall1 : Forall (λ r, ¬ names_tag (search_tag p1) r) rs)
    by (by rewrite Hst).
  destruct (IH p1 out Hall1 Hmv1 Hmc1) as (-> & -> & -> & ->). done.
Qed.

(** *** The working parameters between the pieces of a file *)

Lemma loop_values_unarmed values p out :
  match_column p = -1 → parse (loop_value <$> values) (p, out) = (p, out).
Proof.
  intros Hmc. induction values as [|v values IH]; [done|].
  rewrite fmap_cons, parse_cons. unfold Search at 1.
  by rewrite decide_False by (by intros Hne).
Qed.

(** During the tags of a loop nothing is counted; during its values
    the counter moves only in counting mode with a column armed. *)
Lemma loop_tags_keep_count tags : ∀ p out,
  match_value p = false → counter p = 0 →
  let p' := (parse (loop_tag <$> tags) (p, out)).1 in
  match_value p' = false ∧ counter p' = 0.
Proof.
  induction tags as [|t tags IH]; intros p out Hmv Hc; [done|].
  rewrite fmap_cons, parse_cons. cbv zeta.
  assert (E : ∃ p1, Search (loop_tag t) (p, out) = (p1, out)
                    ∧ match_value p1 = false ∧ counter p1 = 0).
  { destruct p as [st mx0 wf wb wt sm0 onf0 inv0 pc pth bn mv mc tw col cnt].
    cbn [match_value counter] in *. subst mv cnt.
    unfold Search. fields. case_decide; eexists; (split; [reflexivity|done]). }
  destruct E as (p1 & -> & Hmv1 & Hc1). by apply IH.
Qed.

Lemma loop_values_keep_count values : ∀ p out,
  match_value p = false →
  (print_count p = false ∨ match_column p = -1 → counter p = 0) →
  let p' := (parse (loop_value <$> values) (p, out)).1 in
  match_value p' = false
  ∧ (print_count p' = false ∨ match_column p' = -1 → counter p' = 0).
Proof.
  induction values as [|v values IH]; intros p out Hmv Hc; [done|].
  rewrite fmap_cons, parse_cons. cbv zeta.
  assert (E : ∃ p1 out1, Search (loop_value v) (p, out) = (p1, out1)
                ∧ match_value p1 = false
                ∧ (print_count p1 = false ∨ match_column p1 = -1 → counter p1 = 0)).
  { destruct p as [st mx0 wf wb wt sm0 onf0 inv0 pc pth bn mv mc tw col cnt].
    cbn [match_value counter print_count match_column] in *. subst mv.
    unfold Search, process_match. fields.
    destruct (decide (mc ≠ -1)) as [Hmc|Hmc]; [|by eexists _, _].
    destruct pc; fields; repeat case_decide; fields;
      eexists _, _; (split; [reflexivity|]); fields; (split; [done|]);
      intros [?|?]; (done || (apply Hc; by left)). }
  destruct E as (p1 & out1 & -> & Hmv1 & Hc1). by apply IH.
Qed.

Lemma chunk_at_rest c p out :
  at_rest p → at_rest (parse (chunk_productions c) (p, out)).1.
Proof.
  intros (Hmv & Hmc & Hc). destruct c as [block| |t v|tags values].
  - by destruct p.
  - by destruct p.
  - destruct p as [st mx0 wf wb wt sm0 onf0 inv0 pc pth bn mv mc tw col cnt].
    cbn [match_value counter match_column] in *. subst mv mc cnt.
    cbn [chunk_productions parse foldl]. unfold Search, process_match,
      finish_processing. fields.
    destruct (decide (st = t)); fields; [|done].
    destruct pc; fields; done.
  - cbn [chunk_productions]. unfold loop_productions.
    rewrite parse_cons, !parse_app.
    change (Search str_loop (p, out)) with (set_table_width 0 p, out).
    pose proof (loop_tags_keep_count tags (set_table_width 0 p) out) as Htags.
    cbv zeta in Htags.
    destruct (parse (loop_tag <$> tags) (set_table_width 0 p, out)) as [p1 out1].
    cbn [fst] in Htags.
    destruct Htags as [Hmv1 Hc1]; [by destruct p|by destruct p|].
    pose proof (loop_values_keep_count values p1 out1 Hmv1 (λ _, Hc1)) as Hvals.
    cbv zeta in Hvals.
    destruct (parse (loop_value <$> values) (p1, out1)) as [p2 out2].
    cbn [fst] in Hvals. destruct Hvals as [Hmv2 Hc2].
    destruct p2 as [st mx0 wf wb wt sm0 onf0 inv0 pc pth bn mv mc tw col cnt].
    cbn [match_value counter match_column print_count] in *. subst mv.
    cbn [parse foldl]. unfold Search, finish_processing. fields.
    destruct (decide (mc ≠ -1)) as [Hne|Heq].
    + destruct pc; fields; unfold at_rest; fields; [done|].
      split; [done|]. split; [done|]. apply Hc2. by left.
    + apply dec_stable in Heq. unfold at_rest; fields.
      split; [done|]. split; [done|]. apply Hc2. by right.
Qed.

(** Property X5.  Between the pieces of a file the working parameters
    are at rest: if no value is awaited, no column is followed and the
    counter is 0 before a file, the same holds after it, under either
    policy. *)
Theorem working_parameters_rest_between_pieces cs p out :
  at_rest p → at_rest (parse (file_productions cs) (p, out)).1.
Proof.
  revert p out. unfold file_productions.
  induction cs as [|c cs IH]; intros p out Hrest; [done|].
  rewrite bind_cons, parse_app.
  pose proof (chunk_at_rest c p out Hrest) as Hc.
  destruct (parse (chunk_productions c) (p, out)) as [p1 out1].
  by apply IH.
Qed.

(** *** What a search prints for a file *)

(** A loop whose column [c] is the tag searched for, of any length. *)
Lemma loop_run_any tags values p out (c : nat) :
  NoDup tags → tags !! c = Some (search_tag p) →
  Z.of_nat (length tags) ≤ INT_MAX →
  parse (loop_productions tags values) (p, out)
  = let st := finish_processing
                (process_matches (Cif.stride c (length tags) values) (p, out)) in
    (set_loop_state (-1) (Z.of_nat (length tags))
       (Z.of_nat (length values `mod` length tags)) st.1, st.2).
Proof.
  intros Hnd Hc Hw.
  pose proof (lookup_lt_Some _ _ _ Hc) as Hlt.
  unfold loop_productions.
  rewrite parse_cons, !parse_app.
  change (Search str_loop (p, out)) with (set_table_width 0 p, out).
  rewrite (loop_tags_run tags p out c) by done.
  change 0 with (Z.of_nat 0).
  rewrite loop_values_run by (done || lia).
  replace (next_match c 0 (length tags)) with c
    by (unfold next_match; case_decide; lia).
  rewrite Nat.add_0_l.
  destruct (process_matches (Cif.stride c (length tags) values) (p, out))
    as [p1 out1].
  cbn [fst snd parse foldl]. unfold Search.
  rewrite decide_True by (destruct p1; cbn; lia).
  rewrite finish_processing_loop_state.
  destruct (finish_processing (p1, out1)) as [p2 out2]. cbn [fst snd].
  by destruct p2.
Qed.

(** A loop that does not declare the tag, met at rest. *)
Lemma loop_run_absent tags values p out :
  search_tag p ∉ tags → match_column p = -1 →
  Z.of_nat (length tags) ≤ INT_MAX →
  parse (loop_productions tags values) (p, out)
  = (set_table_width (Z.of_nat (length tags)) p, out).
Proof.
  intros Hnot Hmc Hw. unfold loop_productions.
  rewrite parse_cons, !parse_app.
  change (Search str_loop (p, out)) with (set_table_width 0 p, out).
  replace (set_table_width 0 p)
    with (set_loop_state (match_column p) (Z.of_nat 0) (column p) p)
    by (by destruct p).
  rewrite loop_tags_absent by (done || lia). rewrite Nat.add_0_l.
  rewrite loop_values_unarmed by (by destruct p).
  cbn [parse foldl]. unfold Search.
  rewrite decide_False by (destruct p; cbn in *; by intros Hne).
  by destruct p.
Qed.

Lemma shows_as_enter c p q : shows_as p q → shows_as (enter c p) (enter c q).
Proof.
  intros (? & ? & ? & ? & ? & ? & ?). destruct c; [| |done|done];
    destruct p, q; cbn in *; by subst.
Qed.

Lemma match_line_shows_as p q v : shows_as p q → match_line p v = match_line q v.
Proof.
  intros (? & ? & ? & ? & ? & ? & ?). destruct p, q; cbn in *. by subst.
Qed.

Lemma expected_lines_shows_as cs : ∀ p q,
  shows_as p q → expected_lines p cs = expected_lines q cs.
Proof.
  induction cs as [|c cs IH]; intros p q Hpq; [done|]. cbn [expected_lines].
  rewrite (IH (enter c p) (enter c q)) by (by apply shows_as_enter).
  destruct Hpq as (Hst & Hrest). rewrite Hst. f_equal.
  apply list_fmap_ext. intros _ v _. apply match_line_shows_as.
  by split.
Qed.

Lemma chunk_print c p out :
  print_count p = false → match_value p = false → match_column p = -1 →
  followable c →
  ∃ p1, parse (chunk_productions c) (p, out)
        = (p1, out ++ ((λ v, match_line p (Cif.as_string v))
                         <$> chunk_values (search_tag p) c))
        ∧ (print_count p1 = false ∧ match_value p1 = false
           ∧ match_column p1 = -1)
        ∧ shows_as p1 (enter c p).
Proof.
  intros Hpc Hmv Hmc Hfol. destruct c as [block| |t v|tags values].
  - exists (set_block_name block p). cbn. rewrite app_nil_r.
    split; [done|]. by destruct p.
  - exists (set_block_name "global_" p). cbn. rewrite app_nil_r.
    split; [done|]. by destruct p.
  - cbn [chunk_productions chunk_values enter parse foldl].
    destruct p as [st mx0 wf wb wt sm0 onf0 inv0 pc pth bn mv mc tw col cnt].
    cbn [match_value print_count match_column search_tag] in *. subst mv mc pc.
    unfold Search, process_match, finish_processing. fields.
    destruct (decide (st = t)); fields.
    + eexists; (split; [reflexivity|done]).
    + rewrite app_nil_r. eexists; (split; [reflexivity|done]).
  - cbn [chunk_productions chunk_values enter]. destruct Hfol as [Hnd Hw].
    destruct (Cif.find_tag tags (search_tag p)) as [c|] eqn:Etag.
    + rewrite (loop_run_any tags values p out c) by
        (done || by apply find_tag_Some).
      rewrite process_matches_print by done.
      unfold finish_processing. rewrite Hpc. cbn [fst snd].
      eexists. split; [reflexivity|]. by destruct p.
    + rewrite loop_run_absent by (done || by apply find_tag_None).
      rewrite app_nil_r. eexists. split; [reflexivity|]. by destruct p.
Qed.

(** Property X6.  With the default policy, the search of a file whose
    loops declare no tag twice (and have a width that fits an [int])
    prints one line for each value under the tag searched for, scalar
    or in a loop, in file order, each with the name of the block it is
    in ([global_] after the [global_] keyword), and nothing else. *)
Theorem search_prints_every_value_under_the_tag cs p out :
  print_count p = false → match_value p = false → match_column p = -1 →
  Forall followable cs →
  (parse (file_productions cs) (p, out)).2 = out ++ expected_lines p cs.
Proof.
  revert p out. unfold file_productions.
  induction cs as [|c cs IH]; intros p out Hpc Hmv Hmc Hall.
  - cbn. by rewrite app_nil_r.
  - apply Forall_cons in Hall as [Hc Hall].
    rewrite bind_cons, parse_app.
    destruct (chunk_print c p out Hpc Hmv Hmc Hc)
      as (p1 & -> & (Hpc1 & Hmv1 & Hmc1) & Hshow).
    rewrite IH by done. cbn [expected_lines].
    rewrite (expected_lines_shows_as cs p1 (enter c p)) by done.
    by rewrite app_assoc.
Qed.

Lemma file_print cs : ∀ p out,
  print_count p = false → match_value p = false → match_column p = -1 →
  Forall followable cs →
  ∃ p1, parse (file_productions cs) (p, out) = (p1, out ++ expected_lines p cs)
        ∧ (print_count p1 = false ∧ match_value p1 = false
           ∧ match_column p1 = -1)
        ∧ shows_as p1 (entered cs p).
Proof.
  unfold file_productions, entered.
  induction cs as [|c cs IH]; intros p out Hpc Hmv Hmc Hall.
  - exists p. cbn. rewrite app_nil_r. by repeat split.
  - apply Forall_cons in Hall as [Hc Hall].
    destruct (chunk_print c p out Hpc Hmv Hmc Hc)
      as (p1 & E1 & (Hpc1 & Hmv1 & Hmc1) & Hshow).
    destruct (IH p1 (out ++ ((λ v, match_line p (Cif.as_string v))
                               <$> chunk_values (search_tag p) c))
                Hpc1 Hmv1 Hmc1 Hall) as (p2 & E2 & Hq & Hshow2).
    exists p2. rewrite bind_cons, parse_app, E1.
    split.
    { etrans; [exact E2|]. cbn [expected_lines].
      rewrite (expected_lines_shows_as cs p1 (enter c p)) by done.
      by rewrite app_assoc. }
    split; [done|]. cbn [foldl].
    clear -Hshow Hshow2. revert p1 Hshow Hshow2.
    generalize (enter c p). clear p. intros q p1 Hshow Hshow2.
    assert (Hfold : ∀ cs a b, shows_as a b →
              shows_as (foldl (λ q c, enter c q) a cs)
                       (foldl (λ q c, enter c q) b cs)).
    { clear. induction cs as [|c cs IH]; intros a b Hab; [done|].
      cbn [foldl]. apply IH. by apply shows_as_enter. }
    specialize (Hfold cs p1 q Hshow).
    destruct Hshow2 as (? & ? & ? & ? & ? & ? & ?).
    destruct Hfold as (? & ? & ? & ? & ? & ? & ?).
    repeat split; congruence.
Qed.

Lemma shows_as_refl p : shows_as p p.
Proof. by repeat split. Qed.

Lemma shows_as_start tg pth p q :
  shows_as p q →
  shows_as (set_path pth (set_search_tag tg p)) (set_path pth (set_search_tag tg q)).
Proof.
  intros (? & ? & ? & ? & ? & ? & ?). destruct p, q; cbn in *. by subst.
Qed.

Lemma shows_as_entered cs : ∀ p q,
  shows_as p q → shows_as (entered cs p) (entered cs q).
Proof.
  unfold entered. induction cs as [|c cs IH]; intros p q Hpq; [done|].
  cbn [foldl]. apply IH. by apply shows_as_enter.
Qed.

Lemma expected_files_shows_as tg files : ∀ p q,
  shows_as p q → expected_files p tg files = expected_files q tg files.
Proof.
  induction files as [|[pth cs] files IH]; intros p q Hpq; [done|].
  cbn [expected_files].
  rewrite (expected_lines_shows_as cs _ _ (shows_as_start tg pth p q Hpq)).
  f_equal. apply IH. apply shows_as_entered. by apply shows_as_start.
Qed.

(** Property X7.  The loop of [main] over several files prints the
    lines of each file in turn, each with the path of its own file; the
    block name in force at the end of a file is still in force at the
    start of the next. *)
Theorem search_prints_the_files_in_order tg files p out :
  print_count p = false → match_value p = false → match_column p = -1 →
  Forall (λ f, Forall followable f.2) files →
  (grep_files tg ((λ f, (f.1, file_productions f.2)) <$> files) (p, out)).2
  = out ++ expected_files p tg files.
Proof.
  revert p out. unfold grep_files.
  induction files as [|[pth cs] files IH]; intros p out Hpc Hmv Hmc Hall.
  - cbn. by rewrite app_nil_r.
  - apply Forall_cons in Hall as [Hcs Hall]. cbn [snd] in Hcs.
    cbn [fmap list_fmap foldl fst snd grep_file].
    destruct (file_print cs (set_path pth (set_search_tag tg p)) out)
      as (p1 & -> & (Hpc1 & Hmv1 & Hmc1) & Hshow);
      [by destruct p|by destruct p|by destruct p|done|].
    rewrite IH by done. cbn [expected_files].
    rewrite (expected_files_shows_as tg files p1 _ Hshow).
    by rewrite app_assoc.
Qed.

(** *** What a search prints in counting mode *)

Lemma count_line_shows_as p q n :
  shows_as p q → count_line (set_counter n p) = count_line (set_counter n q).
Proof.
  intros (? & ? & ? & ? & ? & ? & ?). destruct p, q; cbn in *. by subst.
Qed.

Lemma expected_counts_shows_as cs : ∀ p q,
  shows_as p q → expected_counts p cs = expected_counts q cs.
Proof.
  induction cs as [|c cs IH]; intros p q Hpq; [done|]. cbn [expected_counts].
  rewrite (IH (enter c p) (enter c q)) by (by apply shows_as_enter).
  f_equal. pose proof Hpq as (Hst & _).
  destruct c as [block| |t v|tags values]; cbn [chunk_count]; [done|done| |].
  - rewrite Hst. case_decide; [|done]. f_equal. by apply count_line_shows_as.
  - rewrite Hst. destruct (Cif.find_tag tags (search_tag q)); [|done].
    f_equal. by apply count_line_shows_as.
Qed.

Lemma chunk_counting c p out :
  print_count p = true → at_rest p → followable c → countable c →
  ∃ p1, parse (chunk_productions c) (p, out) = (p1, out ++ chunk_count p c)
        ∧ print_count p1 = true ∧ at_rest p1 ∧ shows_as p1 (enter c p).
Proof.
  intros Hpc (Hmv & Hmc & Hcnt) Hfol Hcount.
  destruct c as [block| |t v|tags values].
  - exists (set_block_name block p). cbn. rewrite app_nil_r.
    split; [done|]. by destruct p.
  - exists (set_block_name "global_" p). cbn. rewrite app_nil_r.
    split; [done|]. by destruct p.
  - cbn [chunk_productions chunk_count enter parse foldl].
    destruct p as [st mx0 wf wb wt sm0 onf0 inv0 pc pth bn mv mc tw col cnt].
    cbn [match_value print_count match_column search_tag counter] in *.
    subst mv mc pc cnt.
    unfold Search, process_match, finish_processing. fields.
    destruct (decide (st = t)); fields.
    + rewrite (int_incr_small 0) by (unfold INT_MAX; lia).
      eexists; (split; [reflexivity|done]).
    + rewrite app_nil_r. eexists; (split; [reflexivity|done]).
  - cbn [chunk_productions chunk_count enter]. destruct Hfol as [Hnd Hw].
    cbn [countable] in Hcount.
    destruct (Cif.find_tag tags (search_tag p)) as [c|] eqn:Etag.
    + rewrite (loop_run_any tags values p out c) by
        (done || by apply find_tag_Some).
      pose proof (stride_length_bound values c (length tags)) as Hlen.
      rewrite process_matches_count by (rewrite ?Hcnt; unfold INT_MAX in *; lia || done).
      unfold finish_processing. fields. rewrite Hpc, Hcnt, Z.add_0_l.
      cbn [fst snd]. eexists. split; [reflexivity|].
      destruct p; cbn in *; by subst.
    + rewrite loop_run_absent by (done || by apply find_tag_None).
      rewrite app_nil_r. eexists. split; [reflexivity|]. by destruct p.
Qed.

(** Property X8.  With the counting policy, the search of a file
    prints no value; it prints one count for each scalar with the tag
    searched for (the count 1) and one for each loop that declares it
    (the number of cells of its column), and none for a loop that does
    not declare it.  The number of values of a loop is assumed to fit
    an [int]. *)
Theorem search_counts_every_value_under_the_tag cs p out :
  print_count p = true → at_rest p →
  Forall followable cs → Forall countable cs →
  (parse (file_productions cs) (p, out)).2 = out ++ expected_counts p cs.
Proof.
  revert p out. unfold file_productions.
  induction cs as [|c cs IH]; intros p out Hpc Hrest Hfol Hcnt.
  - cbn. by rewrite app_nil_r.
  - apply Forall_cons in Hfol as [Hc Hfol].
    apply Forall_cons in Hcnt as [Hc' Hcnt].
    rewrite bind_cons, parse_app.
    destruct (chunk_counting c p out Hpc Hrest Hc Hc')
      as (p1 & -> & Hpc1 & Hrest1 & Hshow).
    rewrite IH by done. cbn [expected_counts].
    rewrite (expected_counts_shows_as cs p1 (enter c p)) by done.
    by rewrite app_assoc.
Qed.

End Facts.
End SearchFacts.

(** ** The block name actions in a run *)
Module BlockNameFacts.
Import Grep Chunks Samples GrepFacts SearchFacts.

Section Facts.
Context `{!Cif.Lexicon}.

(** The two actions assign [block_name] and nothing else. *)
Lemma Search_block_name s p out :
  Search (datablockname s) (p, out) = (set_block_name s p, out)
  ∧ Search str_global (p, out) = (set_block_name "global_" p, out).
Proof. done. Qed.

Lemma at_rest_start tg pth p :
  at_rest p → at_rest (set_path pth (set_search_tag tg p)).
Proof. by destruct p. Qed.

Lemma parse_pieces_at_rest cs : ∀ p out,
  at_rest p → at_rest (parse (file_productions cs) (p, out)).1.
Proof.
  unfold file_productions.
  induction cs as [|c cs IH]; intros p out Hrest; [done|].
  rewrite bind_cons, parse_app.
  pose proof (chunk_at_rest c p out Hrest) as Hc.
  destruct (parse (chunk_productions c) (p, out)) as [p1 out1]. by apply IH.
Qed.

Lemma grep_files_at_rest tg (files : list (string * list Chunk)) : ∀ p out,
  at_rest p →
  at_rest (grep_files tg ((λ f, (f.1, file_productions f.2)) <$> files)
             (p, out)).1.
Proof.
  unfold grep_files.
  induction files as [|[pth cs] files IH]; intros p out Hrest; [done|].
  cbn [fmap list_fmap foldl fst snd]. unfold grep_file at 2.
  pose proof (parse_pieces_at_rest cs _ out (at_rest_start tg pth p Hrest)) as H1.
  destruct (parse (file_productions cs) (set_path pth (set_search_tag tg p), out))
    as [p1 out1].
  by apply IH.
Qed.

Lemma grep_file_options tg pth rs p out :
  let p' := (grep_file tg pth rs (p, out)).1 in
  options p' = options p ∧ search_tag p' = tg.
Proof.
  cbv zeta. unfold grep_file.
  pose proof (parse_options rs (set_path pth (set_search_tag tg p)) out) as Hp.
  cbv zeta in Hp. destruct Hp as (Ho & Ht & _).
  rewrite Ho, Ht. by destruct p.
Qed.

Lemma grep_files_options tg files : ∀ p out,
  options (grep_files tg files (p, out)).1 = options p.
Proof.
  unfold grep_files.
  induction files as [|[pth rs] files IH]; intros p out; [done|].
  cbn [foldl fst snd].
  pose proof (grep_file_options tg pth rs p out) as Hf. cbv zeta in Hf.
  destruct (grep_file tg pth rs (p, out)) as [p1 out1]. cbn [fst] in Hf.
  rewrite IH. by destruct Hf.
Qed.

(** Claim C10.  Take a run of [main] over files whose working
    parameters are at rest at the start, as the member initialisers
    leave them, and a data block name, or the [global_] keyword, met
    after any number of files and any pieces of the current file.
    After the action [block_name] is the matched name (the literal
    [global_] for the keyword), the working counters [match_value],
    [match_column] and [counter] are at their reset values [false],
    [-1] and [0], [search_tag] is the tag of the caller and the options
    are those of the caller; the output is not touched.  The action
    itself assigns [block_name] only: the counters are at their reset
    values then because every scalar and every loop met before has put
    them back. *)
Theorem C10_block_name_actions_in_a_run tg files pth cs s p out :
  at_rest p →
  let earlier :=
    grep_files tg ((λ f, (f.1, file_productions f.2)) <$> files) (p, out) in
  let before := grep_file tg pth (file_productions cs) earlier in
  let named := Search (datablockname s) before in
  let global := Search str_global before in
  (block_name named.1 = s ∧ block_name global.1 = "global_")
  ∧ (match_value named.1 = false ∧ match_column named.1 = -1
     ∧ counter named.1 = 0)
  ∧ (match_value global.1 = false ∧ match_column global.1 = -1
     ∧ counter global.1 = 0)
  ∧ (search_tag named.1 = tg ∧ search_tag global.1 = tg)
  ∧ (options named.1 = options p ∧ options global.1 = options p)
  ∧ (named.2 = before.2 ∧ global.2 = before.2)
  ∧ named.1 = set_block_name s before.1
  ∧ global.1 = set_block_name "global_" before.1.
Proof.
  intros Hrest. cbv zeta.
  pose proof (grep_files_at_rest tg files p out Hrest) as Hearlier.
  pose proof (grep_files_options tg
                ((λ f, (f.1, file_productions f.2)) <$> files) p out) as Hopt.
  destruct (grep_files tg ((λ f, (f.1, file_productions f.2)) <$> files)
              (p, out)) as [p1 out1].
  cbn [fst] in Hearlier, Hopt.
  pose proof (grep_file_options tg pth (file_productions cs) p1 out1) as Hfile.
  cbv zeta in Hfile. destruct Hfile as [Ho Ht].
  pose proof (parse_pieces_at_rest cs _ out1 (at_rest_start tg pth p1 Hearlier))
    as Hbefore.
  unfold grep_file in *.
  destruct (parse (file_productions cs) (set_path pth (set_search_tag tg p1), out1))
    as [p2 out2].
  cbn [fst snd] in *. destruct Hbefore as (Hmv & Hmc & Hc).
  destruct (Search_block_name s p2 out2) as [-> ->]. cbn [fst snd].
  rewrite <- Hopt, <- Ho.
  destruct p2; cbn in *. by subst.
Qed.

End Facts.

(** A data block name met after the sample file, in a run that starts
    from the member initialisers. *)
Lemma C10_witness :
  block_name
    (@Search Cif.sample_lexicon (datablockname "2XYZ")
       (@grep_file Cif.sample_lexicon "_atom_site.label" "1abc.cif"
          (file_productions sample_file) (Parameters_default, []))).1 = "2XYZ"
  ∧ at_rest
      (@Search Cif.sample_lexicon (datablockname "2XYZ")
         (@grep_file Cif.sample_lexicon "_atom_site.label" "1abc.cif"
            (file_productions sample_file) (Parameters_default, []))).1.
Proof.
  pose proof (@C10_block_name_actions_in_a_run Cif.sample_lexicon
                "_atom_site.label" [] "1abc.cif" sample_file "2XYZ"
                Parameters_default [] (conj eq_refl (conj eq_refl eq_refl)))
    as H.
  exact (conj (proj1 (proj1 H)) (proj1 (proj2 H))).
Defined.

End BlockNameFacts.

(** ** [Arg::Int] *)
Module CommandLineFacts.
Import CommandLine StringFacts.
Local Open Scope nat_scope.

Lemma span_le f s : span f s ≤ String.length s.
Proof.
  induction s as [|c s IH]; cbn [span String.length]; [done|].
  destruct (f c); lia.
Qed.

Lemma span_app f a b :
  span f a = String.length a →
  span f (a +:+ b) = String.length a + span f b.
Proof.
  induction a as [|c a IH]; [done|].
  rewrite str_app_cons. cbn [span String.length].
  destruct (f c); [|done]. intros [= Ha]. by rewrite IH.
Qed.

Lemma span_take f s : span f (Ddl.str_take (span f s) s) = span f s.
Proof.
  induction s as [|c s IH]; cbn [span]; [done|].
  destruct (f c) eqn:E; [|done]. cbn [Ddl.str_take span]. by rewrite E, IH.
Qed.

Lemma str_take_length n s :
  n ≤ String.length s → String.length (Ddl.str_take n s) = n.
Proof.
  revert s. induction n as [|n IH]; intros [|c s]; cbn [Ddl.str_take String.length];
    try done; try lia. intros Hn. rewrite IH; lia.
Qed.

Lemma str_drop_length n s :
  String.length (Ddl.str_drop n s) = String.length s - n.
Proof.
  revert s. induction n as [|n IH]; intros [|c s]; cbn [Ddl.str_drop String.length];
    first [done | lia | apply IH].
Qed.

Lemma str_take_drop n s : Ddl.str_take n s +:+ Ddl.str_drop n s = s.
Proof.
  revert s. induction n as [|n IH]; intros [|c s]; cbn [Ddl.str_take Ddl.str_drop];
    try done. by rewrite str_app_cons, IH.
Qed.

Lemma str_drop_app_exact a b : Ddl.str_drop (String.length a) (a +:+ b) = b.
Proof.
  induction a as [|c a IH]; [by destruct b|].
  rewrite str_app_cons. cbn [String.length Ddl.str_drop]. apply IH.
Qed.

Lemma span_all_digits s :
  span Cif.is_digit s = String.length s ↔ Cif.all_digits s = true.
Proof.
  induction s as [|c s IH]; cbn [span String.length Cif.all_digits]; [done|].
  destruct (Cif.is_digit c); cbn [andb]; [|done].
  rewrite <- IH. split; [by intros [= ?]|by intros ->].
Qed.

Lemma digit_is_plain c :
  Cif.is_digit c = true → isspace c = false ∧ is_sign c = false.
Proof.
  unfold Cif.is_digit, isspace, is_sign. intros Hd.
  apply andb_true_iff in Hd as [Hlo Hhi].
  apply Nat.leb_le in Hlo, Hhi. split.
  - apply orb_false_iff. split.
    + apply Nat.eqb_neq. lia.
    + apply andb_false_iff. right. apply Nat.leb_gt. lia.
  - apply orb_false_iff.
    split; apply bool_decide_eq_false; intros ->;
      change (Ascii.nat_of_ascii "+") with 43 in *;
      change (Ascii.nat_of_ascii "-") with 45 in *; lia.
Qed.

Lemma sign_is_not_space c : is_sign c = true → isspace c = false.
Proof.
  unfold is_sign. intros Hs. apply orb_true_iff in Hs as [Hs|Hs];
    apply bool_decide_eq_true in Hs; by subst c.
Qed.

Lemma strtol_consumed_numeric ws sign digits :
  span isspace ws = String.length ws →
  sign = "" ∨ sign = "+" ∨ sign = "-" →
  digits ≠ "" → Cif.all_digits digits = true →
  strtol_consumed (ws +:+ sign +:+ digits)
  = String.length (ws +:+ sign +:+ digits)
  ∧ strtol_consumed (ws +:+ sign +:+ digits) ≠ 0.
Proof.
  intros Hws Hsign Hne Hdig.
  destruct digits as [|d digits]; [done|].
  assert (Hd : Cif.is_digit d = true)
    by (cbn [Cif.all_digits] in Hdig; by apply andb_true_iff in Hdig as [? _]).
  destruct (digit_is_plain d Hd) as [Hnsp Hnsg].
  apply span_all_digits in Hdig.
  unfold strtol_consumed.
  assert (Hspan : span isspace (ws +:+ sign +:+ String d digits) = String.length ws).
  { rewrite span_app by done.
    destruct Hsign as [->|[->| ->]];
      rewrite ?str_app_cons, ?str_app_nil_l; cbn [span];
      change (isspace "+") with false; change (isspace "-") with false;
      rewrite ?Hnsp; lia. }
  rewrite Hspan, str_drop_app_exact.
  rewrite !str_app_length.
  destruct Hsign as [->|[->| ->]];
    rewrite ?str_app_cons, ?str_app_nil_l;
    change (is_sign "+") with true; change (is_sign "-") with true;
    rewrite ?Hnsg; cbn [Ddl.str_drop]; rewrite Hdig; cbn [String.length];
    rewrite decide_False by lia; lia.
Qed.

Lemma strtol_consumed_whole a :
  strtol_consumed a ≠ 0 → strtol_consumed a = String.length a →
  numeric_text a.
Proof.
  unfold strtol_consumed.
  set (wsn := span isspace a).
  set (after := Ddl.str_drop wsn a).
  set (signlen := match after with
                  | String c _ => if is_sign c then 1 else 0
                  | EmptyString => 0
                  end).
  set (dn := span Cif.is_digit (Ddl.str_drop signlen after)).
  destruct (decide (dn = 0)) as [|Hdn]; [done|]. intros _ Hlen.
  pose proof (span_le isspace a) as Hwsn. fold wsn in Hwsn.
  pose proof (str_drop_length wsn a) as Hafter. fold after in Hafter.
  pose proof (str_drop_length signlen after) as Hdigits.
  pose proof (span_le Cif.is_digit (Ddl.str_drop signlen after)) as Hdle.
  fold dn in Hdle.
  assert (Hsl : signlen ≤ String.length after).
  { unfold signlen. destruct after as [|c r]; [done|].
    cbn [String.length]. destruct (is_sign c); lia. }
  exists (Ddl.str_take wsn a), (Ddl.str_take signlen after),
    (Ddl.str_drop signlen after).
  split; [by rewrite (str_take_drop signlen after); unfold after;
          rewrite str_take_drop|].
  split; [unfold wsn; rewrite span_take; by rewrite str_take_length
            by apply span_le|].
  split.
  { unfold signlen. destruct after as [|c r]; [by left|].
    destruct (is_sign c) eqn:Es; [|by left]. right.
    cbn [Ddl.str_take]. unfold is_sign in Es.
    apply orb_true_iff in Es as [Es|Es]; apply bool_decide_eq_true in Es;
      subst c; [by left|by right]. }
  split.
  - intros E. unfold dn in Hdn. by rewrite E in Hdn.
  - apply span_all_digits. fold dn. lia.
Qed.

(** Property X1.  [Arg::Int] returns [ARG_OK] exactly when the option
    has an argument and that argument is, as a whole, white space, an
    optional sign and at least one decimal digit; it then writes
    nothing.  Otherwise it returns [ARG_ILLEGAL], and writes its one
    line with the name of the option iff [msg] is set. *)
Theorem Int_accepts_whole_decimal_numbers arg name msg :
  ((Int arg name msg).1 = ARG_OK ↔ ∃ a, arg = Some a ∧ numeric_text a)
  ∧ ((Int arg name msg).1 = ARG_OK → (Int arg name msg).2 = [])
  ∧ ((Int arg name msg).1 = ARG_ILLEGAL →
     (Int arg name msg).2
     = if msg then ["Option '" +:+ name +:+ "' requires a numeric argument" +:+ nl]
       else []).
Proof.
  unfold Int. destruct arg as [a|].
  - destruct (bool_decide (strtol_consumed a ≠ 0)
              && bool_decide (strtol_consumed a = String.length a)) eqn:E.
    + apply andb_true_iff in E as [E1 E2].
      apply bool_decide_eq_true in E1, E2.
      split; [|by split]. split; [|done]. intros _. exists a.
      split; [done|]. by apply strtol_consumed_whole.
    + split; [|by split]. split; [done|].
      intros (a' & [= <-] & ws & sign & digits & -> & Hws & Hsign & Hne & Hdig).
      destruct (strtol_consumed_numeric ws sign digits Hws Hsign Hne Hdig)
        as [Hlen Hnz].
      apply andb_false_iff in E as [E|E]; apply bool_decide_eq_false in E; done.
  - split; [|by split]. split; [done|]. by intros (a & [=] & _).
Qed.

End CommandLineFacts.

(** ** More about the type checkers *)
Module TypeCheckFacts.
Import Cif Ddl CheckerFacts StringFacts.

Lemma set_last_snoc c s x : set_last c (s +:+ String x "") = s +:+ String c "".
Proof.
  induction s as [|a s IH]; [done|].
  rewrite !str_app_cons. cbn [set_last].
  destruct (s +:+ String x "") eqn:E.
  - by destruct s.
  - by rewrite <- IH.
Qed.

Lemma enumeration_message_from (m : string) (en : list string) :
  foldl (λ m e, m +:+ " " +:+ e +:+ ",") m en
  = m +:+ String.concat "" ((λ e, " " +:+ e +:+ ",") <$> en).
Proof.
  revert m. induction en as [|e en IH]; intros m; cbn [foldl fmap list_fmap].
  - cbn [String.concat]. by rewrite str_app_nil_r.
  - rewrite IH, JoinFacts.concat_empty_cons. by rewrite !str_app_assoc.
Qed.

Section Facts.
Context `{!Lexicon} `{!Indeterminate}.

(** Property X12.  A value that is not null and not among the allowed
    values fails [validate_enumeration] with the message that quotes
    the raw value and lists every allowed value in order, separated by
    commas and closed by a full stop. *)
Theorem enumeration_failure_names_the_allowed_values val en last_one m :
  is_null val = false → as_string val ∉ en ++ [last_one] →
  validate_enumeration val (en ++ [last_one]) (Some m)
  = (false,
     Some ("'" +:+ val +:+ "' is not one of:"
           +:+ String.concat "" ((λ e, " " +:+ e +:+ ",") <$> en)
           +:+ " " +:+ last_one +:+ ".")).
Proof.
  intros Hnull Hnot. unfold validate_enumeration.
  rewrite Hnull, bool_decide_eq_false_2 by (by destruct en).
  rewrite bool_decide_eq_false_2 by done.
  cbn [orb assign]. do 2 f_equal. unfold enumeration_message.
  rewrite foldl_app. cbn [foldl].
  rewrite enumeration_message_from.
  replace ((("'" +:+ val +:+ "' is not one of:")
              +:+ String.concat "" ((λ e0, " " +:+ e0 +:+ ",") <$> en))
             +:+ " " +:+ last_one +:+ ",")
    with ((("'" +:+ val +:+ "' is not one of:"
              +:+ String.concat "" ((λ e0, " " +:+ e0 +:+ ",") <$> en)
              +:+ " " +:+ last_one) +:+ String ","%char ""))
    by (by rewrite !str_app_assoc).
  rewrite set_last_snoc. by rewrite !str_app_assoc.
Qed.

Import TypeCheckDDL1.

(** [_type] alone decides [is_numb_]. *)
Lemma from_block_is_numb b :
  is_numb_ (from_block b default)
  = match find_value b "_type" with
    | Some type => if decide (type = "numb") then Yes else No
    | None => Unset
    end.
Proof.
  unfold from_block.
  destruct (find_value b "_enumeration_range") as [range|];
    [destruct (str_find ":" range)|];
    rewrite ?read_enumeration_spec;
    destruct (find_value b "_type_conditions"), (find_value b "_type"),
      (find_value b "_list") as [list|]; try done; cbn;
    repeat case_decide; done.
Qed.

Lemma validate_value_not_numb b v m :
  find_value b "_type" ≠ Some "numb" →
  validate_value (from_block b default) v m
  = validate_enumeration v (enumeration_ (from_block b default)) m.
Proof.
  intros Htype. unfold validate_value.
  rewrite from_block_is_numb.
  destruct (find_value b "_type") as [type|]; [|done].
  destruct (decide (type = "numb")) as [->|]; done.
Qed.

(** Property X13.  For a tag whose definition does not declare the
    type [numb], [validate_value] of DDL1 is [validate_enumeration]
    alone: a declared range is not looked at. *)
Theorem range_is_ignored_unless_the_type_is_numb b v m :
  find_value b "_type" ≠ Some "numb" →
  validate_value (from_block b default) v m
  = validate_enumeration v (enumeration_ (from_block b default)) m.
Proof. apply validate_value_not_numb. Qed.

(** Property X14.  For a tag of type [numb], a value that is neither
    null nor a number fails with [expected number], whatever the range
    and the enumeration are. *)
Theorem text_under_a_numb_type_is_rejected b v m :
  find_value b "_type" = Some "numb" →
  is_null v = false → is_numb v = false →
  validate_value (from_block b default) v m = (false, assign m "expected number").
Proof.
  intros Htype Hnull Hnumb.
  assert (E : is_numb_ (from_block b default) = Yes)
    by (rewrite from_block_is_numb, Htype; by rewrite decide_True).
  unfold validate_value. rewrite decide_True by done.
  by rewrite Hnull, Hnumb.
Qed.

(** Property X15.  A definition whose [_enumeration_range] holds no
    colon makes [from_block] return early: the range is marked present
    with its bounds left as they were, and the [_enumeration] loop is
    not read, so that every value of a tag that is not of type [numb]
    passes. *)
Theorem range_without_colon_drops_the_enumeration b range :
  find_value b "_enumeration_range" = Some range →
  str_find ":" range = None →
  let tc := from_block b default in
  has_range_ tc = true ∧ enumeration_ tc = []
  ∧ range_low_ tc = garbage_low ∧ range_high_ tc = garbage_high
  ∧ (∀ v m, find_value b "_type" ≠ Some "numb" →
       validate_value tc v m = (true, m)).
Proof.
  intros Hrange Hcolon. cbv zeta.
  assert (E : has_range_ (from_block b default) = true
              ∧ enumeration_ (from_block b default) = []
              ∧ range_low_ (from_block b default) = garbage_low
              ∧ range_high_ (from_block b default) = garbage_high).
  { unfold from_block. rewrite Hrange, Hcolon.
    destruct (find_value b "_type_conditions"), (find_value b "_type"),
      (find_value b "_list") as [list|]; cbn; repeat case_decide; done. }
  destruct E as (E1 & E2 & E3 & E4). repeat (split; [done|]).
  intros v m Htype.
  rewrite validate_value_not_numb by done. by rewrite E2.
Qed.

End Facts.
End TypeCheckFacts.

(** ** More about [DDL::validate] *)
Module SubjectFacts.
Import Cif Ddl Subject CheckerFacts ValidateFacts.

Lemma tags_by_index (tags : list string) :
  (λ i, default "" (tags !! i)) <$> seq 0 (length tags) = tags.
Proof.
  apply list_eq. intros i. rewrite list_lookup_fmap.
  destruct (decide (i < length tags)%nat) as [Hlt|Hge].
  - rewrite lookup_seq_lt by done. cbn.
    destruct (lookup_lt_is_Some_2 tags i Hlt) as [t Ht]. by rewrite Ht.
  - rewrite lookup_seq_ge by lia. cbn. symmetry. apply lookup_ge_None. lia.
Qed.

Section Facts.
Context `{!Lexicon} `{!Indeterminate}.

(** *** Unknown tags *)

Lemma unknown_validate_and_report check c b item v st :
  unknown_tags (validate_and_report check c b item v st) = unknown_tags st.
Proof.
  unfold validate_and_report. destruct (check v (Some (msg st))) as [[] m]; done.
Qed.

Lemma unknown_validate_values check c b item vs : ∀ st,
  unknown_tags (foldl (λ s v, validate_and_report check c b item v s) st vs)
  = unknown_tags st.
Proof.
  induction vs as [|v vs IH]; intros st; cbn [foldl]; [done|].
  by rewrite IH, unknown_validate_and_report.
Qed.

Lemma grow_nil (o : option (list string)) : (λ l, l ++ []) <$> o = o.
Proof. destruct o as [l|]; cbn; [|done]. by rewrite app_nil_r. Qed.

Lemma grow_app (o : option (list string)) xs ys :
  (λ l, l ++ ys) <$> ((λ l, l ++ xs) <$> o) = (λ l, l ++ (xs ++ ys)) <$> o.
Proof. destruct o as [l|]; cbn; [|done]. by rewrite app_assoc. Qed.

Lemma unknown_validate_scalar d c b item tg v st :
  unknown_tags (validate_scalar d c b item tg v st)
  = (λ l, l ++ unindexed d [tg]) <$> unknown_tags st.
Proof.
  unfold validate_scalar, unindexed. rewrite filter_cons, filter_nil. cbn beta.
  destruct (find d tg) as [db|] eqn:E.
  - rewrite (decide_False (P := Some db = None)) by done. rewrite grow_nil.
    destruct (decide (version_ d = 1)); cbv zeta;
      rewrite unknown_validate_and_report; [|done].
    by destruct (decide _).
  - by rewrite decide_True.
Qed.

Lemma unknown_validate_column d c b item tags values st i :
  unknown_tags (validate_column d c b item tags values st i)
  = (λ l, l ++ unindexed d [default "" (tags !! i)]) <$> unknown_tags st.
Proof.
  unfold validate_column, unindexed. cbv zeta. rewrite filter_cons, filter_nil.
  cbn beta.
  destruct (find d (default "" (tags !! i))) as [db|] eqn:E.
  - rewrite (decide_False (P := Some db = None)) by done. rewrite grow_nil.
    destruct (decide (version_ d = 1));
      rewrite unknown_validate_values; [|done].
    by destruct (decide _).
  - by rewrite decide_True.
Qed.

Lemma unknown_foldl {X} (f : Run → X → Run) (tags_of : X → list string) d xs :
  (∀ st x, unknown_tags (f st x)
           = (λ l, l ++ unindexed d (tags_of x)) <$> unknown_tags st) →
  ∀ st, unknown_tags (foldl f st xs)
        = (λ l, l ++ unindexed d (xs ≫= tags_of)) <$> unknown_tags st.
Proof.
  intros Hf. induction xs as [|x xs IH]; intros st; cbn [foldl].
  - by rewrite grow_nil.
  - rewrite IH, Hf, grow_app, bind_cons. unfold unindexed.
    by rewrite filter_app.
Qed.

Lemma unknown_validate_item d c b st item :
  unknown_tags (validate_item d c b st item)
  = (λ l, l ++ unindexed d (item_tags item)) <$> unknown_tags st.
Proof.
  destruct item as [tg v|tags values|f]; cbn [validate_item item_tags].
  - apply unknown_validate_scalar.
  - rewrite (unknown_foldl _ (λ i, [default "" (tags !! i)]) d)
      by apply unknown_validate_column.
    assert (E : seq 0 (length tags) ≫= (λ i, [default "" (tags !! i)]) = tags).
    { rewrite <- (tags_by_index tags) at 2.
      generalize (seq 0 (length tags)). intros l.
      induction l as [|i l IH]; [done|]. rewrite bind_cons, fmap_cons.
      by rewrite IH. }
    by rewrite E.
  - by rewrite grow_nil.
Qed.

Lemma unknown_validate_item_doc d c unknown :
  unknown_tags (validate d c unknown)
  = (λ l, l ++ unindexed d (subject_tags c)) <$> unknown.
Proof.
  unfold validate, validate_from, subject_tags.
  rewrite (unknown_foldl _ (λ b, items b ≫= item_tags) d); [done|].
  intros st b. unfold validate_block.
  apply unknown_foldl. intros st' item. apply unknown_validate_item.
Qed.

(** Property X16.  [validate] appends to the list of unknown tags, in
    the order of the document, one entry for each occurrence of a tag
    of a scalar or of a loop that [find] does not know (tags inside
    save frames are not visited); without a list it collects
    nothing. *)
Theorem validate_lists_the_unindexed_tags d c unknown :
  unknown_tags (validate d c unknown)
  = (λ l, l ++ unindexed d (subject_tags c)) <$> unknown
  ∧ unknown_tags (validate d c None) = None
  ∧ (∀ l, unknown_tags (validate d c (Some l))
          = Some (l ++ unindexed d (subject_tags c)))
  ∧ (∀ tg, tg ∈ unindexed d (subject_tags c)
           ↔ tg ∈ subject_tags c ∧ find d tg = None).
Proof.
  split; [apply unknown_validate_item_doc|].
  split; [by rewrite unknown_validate_item_doc|].
  split; [intros l; by rewrite unknown_validate_item_doc|].
  intros tg. unfold unindexed. rewrite list_elem_of_filter. tauto.
Qed.

(** *** Tags the dictionary does not index *)

Lemma item_report_unindexed d c b item :
  Forall (λ tg, find d tg = None) (item_tags item) →
  item_report d c b item = [].
Proof.
  intros Hall. unfold item_report.
  destruct item as [tg v|tags values|f]; cbn [validate_item item_tags] in *.
  - apply Forall_cons in Hall as [Hnone _].
    rewrite report_validate_scalar. by rewrite Hnone.
  - rewrite report_foldl by apply additive_validate_column.
    cbn [report fresh app].
    assert (E : ∀ idx : list nat, Forall (λ i, (i < length tags)%nat) idx →
              idx ≫= (λ i, report (validate_column d c b (Loop tags values)
                                    tags values fresh i)) = []).
    { intros idx Hidx. induction Hidx as [|i idx Hi _ IH]; [done|].
      rewrite bind_cons, IH, report_validate_column.
      destruct (lookup_lt_is_Some_2 tags i Hi) as [t Ht]. rewrite Ht.
      cbn [default from_option id].
      rewrite (proj1 (Forall_forall _ _) Hall t)
        by (by eapply list_elem_of_lookup_2). done. }
    apply E. apply Forall_forall. intros i Hi.
    apply elem_of_seq in Hi. lia.
  - done.
Qed.

(** Property X17.  A document none of whose tags the dictionary
    indexes is reported no failure at all; all its tags are listed as
    unknown. *)
Theorem unindexed_tags_are_never_reported d c unknown :
  Forall (λ tg, find d tg = None) (subject_tags c) →
  report (validate d c unknown) = []
  ∧ unknown_tags (validate d c unknown) = (λ l, l ++ subject_tags c) <$> unknown.
Proof.
  intros Hall. split.
  - unfold validate. rewrite report_validate_from. cbn [report app].
    unfold subject_tags in Hall.
    induction (blocks c) as [|b bs IHb]; [done|].
    rewrite bind_cons in Hall. apply Forall_app in Hall as [Hb Hbs].
    rewrite bind_cons, IHb, app_nil_r by done.
    induction (items b) as [|item its IHi]; [done|].
    rewrite bind_cons in Hb. apply Forall_app in Hb as [Hitem Hits].
    rewrite bind_cons, IHi, app_nil_r by done.
    by apply item_report_unindexed.
  - rewrite unknown_validate_item_doc.
    assert (E : unindexed d (subject_tags c) = subject_tags c).
    { unfold unindexed. induction Hall as [|tg tags Htg _ IH]; [done|].
      by rewrite filter_cons_True, IH. }
    by rewrite E.
Qed.

(** *** The cells of a column *)

Lemma stride_rows (values : list string) i w n :
  (i < w)%nat → length values = (n * w)%nat →
  stride i w values
  = (λ r, default "" (values !! (r * w + i)%nat)) <$> seq 0 n.
Proof.
  intros Hi Hlen. apply list_eq. intros k.
  rewrite CifFacts.stride_lookup by lia. rewrite list_lookup_fmap.
  destruct (decide (k < n)%nat) as [Hk|Hk].
  - rewrite lookup_seq_lt by done. cbn.
    assert (Hlt : (k * w + i < length values)%nat) by nia.
    destruct (lookup_lt_is_Some_2 values _ Hlt) as [x Hx].
    replace (i + k * w)%nat with (k * w + i)%nat by lia. by rewrite Hx.
  - rewrite lookup_seq_ge by lia. cbn. apply lookup_ge_None. nia.
Qed.

(** Property X18.  For a loop of [n] full rows, the inner loop of
    [validate] checks for the column [i] exactly the [n] cells at the
    positions [r * ncol + i], in row order, after the cardinality
    check of the column. *)
Theorem validate_checks_a_column_row_by_row d c b item tags values st i n :
  (i < length tags)%nat → length values = (n * length tags)%nat →
  let cells := (λ r, default "" (values !! (r * length tags + i)%nat))
                 <$> seq 0 n in
  length cells = n
  ∧ report (validate_column d c b item tags values st i)
    = report st ++
      match find d (default "" (tags !! i)) with
      | None => []
      | Some db =>
          if decide (version_ d = 1) then
            let tc := TypeCheckDDL1.from_block db TypeCheckDDL1.default in
            (if decide (TypeCheckDDL1.is_list tc = No)
             then [mkFailure b item (default "" (tags !! i) +:+ " in list")]
             else [])
            ++ (cells ≫= value_report (TypeCheckDDL1.validate_value tc) b item)
          else
            cells ≫= value_report
                       (TypeCheckDDL2.validate_value
                          (TypeCheckDDL2.from_block db TypeCheckDDL2.default))
                       b item
      end.
Proof.
  intros Hi Hlen. cbv zeta. split; [by rewrite length_fmap, length_seq|].
  rewrite report_validate_column. by rewrite (stride_rows values i _ n).
Qed.

(** *** The DDL2 dialect *)

Lemma ddl2_from_block_enumeration db :
  TypeCheckDDL2.enumeration_ (TypeCheckDDL2.from_block db TypeCheckDDL2.default)
  = as_string <$> find_loop db "_item_enumeration.value".
Proof.
  unfold TypeCheckDDL2.from_block.
  assert (E : ∀ l tc,
    TypeCheckDDL2.enumeration_
      (foldl (λ tc' e,
                TypeCheckDDL2.mk (TypeCheckDDL2.is_numb_ tc')
                  (TypeCheckDDL2.has_range_ tc') (TypeCheckDDL2.range_low_ tc')
                  (TypeCheckDDL2.range_high_ tc')
                  (TypeCheckDDL2.enumeration_ tc' ++ [as_string e])) tc l)
    = TypeCheckDDL2.enumeration_ tc ++ (as_string <$> l)).
  { induction l as [|e l IH]; intros tc; cbn [foldl fmap list_fmap].
    - by rewrite app_nil_r.
    - rewrite IH. cbn. by rewrite <- app_assoc. }
  by rewrite E.
Qed.

Lemma ddl2_value_report tc b item v :
  value_report (TypeCheckDDL2.validate_value tc) b item v
  = if (validate_enumeration v (TypeCheckDDL2.enumeration_ tc) None).1 then []
    else [mkFailure b item (enumeration_message v (TypeCheckDDL2.enumeration_ tc))].
Proof.
  unfold value_report, TypeCheckDDL2.validate_value, validate_enumeration.
  by destruct (_ || _ || _).
Qed.

(** Property X19.  Under a DDL2 dictionary, [validate] reports for a
    known tag the failures of [validate_enumeration] against the
    [_item_enumeration.value] loop of its save frame and no other:
    there is no check of cardinality, type or range, and a save frame
    without that loop accepts every value. *)
Theorem ddl2_checks_enumerations_only d c b item tg v db st tags values i :
  version_ d ≠ 1 → find d tg = Some db → tags !! i = Some tg →
  let en := as_string <$> find_loop db "_item_enumeration.value" in
  let failure := λ v,
    if (validate_enumeration v en None).1 then []
    else [mkFailure b item (enumeration_message v en)] in
  report (validate_scalar d c b item tg v st) = report st ++ failure v
  ∧ report (validate_column d c b item tags values st i)
    = report st ++ (stride i (length tags) values ≫= failure)
  ∧ (en = [] →
     report (validate_scalar d c b item tg v st) = report st
     ∧ report (validate_column d c b item tags values st i) = report st).
Proof.
  intros Hd Hdb Htag. cbv zeta.
  rewrite report_validate_scalar, report_validate_column.
  rewrite Htag. change (default "" (Some tg)) with tg.
  rewrite Hdb. rewrite !decide_False by done.
  assert (E : ∀ x, value_report
                     (TypeCheckDDL2.validate_value
                        (TypeCheckDDL2.from_block db TypeCheckDDL2.default))
                     b item x
                   = if (validate_enumeration x
                           (as_string <$> find_loop db "_item_enumeration.value")
                           None).1 then []
                     else [mkFailure b item
                             (enumeration_message x
                                (as_string <$> find_loop db "_item_enumeration.value"))]).
  { intros x. by rewrite ddl2_value_report, ddl2_from_block_enumeration. }
  assert (Ecol : ∀ vs : list string,
            vs ≫= value_report
                    (TypeCheckDDL2.validate_value
                       (TypeCheckDDL2.from_block db TypeCheckDDL2.default))
                    b item
            = vs ≫= λ x,
                if (validate_enumeration x
                      (as_string <$> find_loop db "_item_enumeration.value")
                      None).1 then []
                else [mkFailure b item
                        (enumeration_message x
                           (as_string <$> find_loop db "_item_enumeration.value"))]).
  { intros vs. apply list_bind_ext; [|done]. intros x. apply E. }
  rewrite E, Ecol. split; [done|]. split; [done|].
  intros ->. rewrite validate_enumeration_empty. cbn [fst].
  rewrite app_nil_r. split; [done|].
  induction (stride i (length tags) values) as [|x xs IH]; [by rewrite app_nil_r|].
  by rewrite bind_cons.
Qed.

End Facts.
End SubjectFacts.

(** ** More about the dictionary *)
Module IndexFacts.
Import Cif Ddl Subject DictionaryFacts.

Section Facts.
Context `{!Lexicon}.

Lemma first_definer_None nm name_tag bs :
  first_definer nm name_tag bs = None
  ↔ ∀ b, b ∈ bs → nm ∉ names_of b name_tag.
Proof.
  induction bs as [|x bs IH]; cbn [first_definer].
  - split; [|done]. intros _ b Hb. by apply elem_of_nil in Hb.
  - destruct (decide (nm ∈ names_of x name_tag)) as [Hin|Hout].
    + split; [done|]. intros Hall. exfalso. apply (Hall x); [left|done].
    + rewrite IH. split.
      * intros Hall b Hb. apply elem_of_cons in Hb as [->|Hb]; [done|by apply Hall].
      * intros Hall b Hb. apply Hall. by right.
Qed.

Lemma find_open_file doc garbage nm :
  find (open_file doc (DDL_default garbage)) nm
  = first_definer nm (name_tag_of doc) (carriers doc).
Proof.
  unfold open_file, name_tag_of, carriers. cbn [version_ name_index_ DDL_default].
  destruct (decide (1 < length (blocks doc))%nat).
  - rewrite !decide_True by done. unfold read_ddl1. cbn [ddl_].
    by rewrite find_read_ddl1_blocks.
  - rewrite !decide_False by done. unfold read_ddl2. cbn [ddl_].
    by rewrite find_read_ddl2_blocks.
Qed.

(** Property X10.  After [open_file], [find] fails on a name iff no
    block of the dictionary (DDL1) or save frame (DDL2) defines it
    under the name tag of the dialect; when it succeeds, the block it
    gives is one of those, and defines the name. *)
Theorem index_holds_exactly_the_defined_names doc garbage nm :
  let d := open_file doc (DDL_default garbage) in
  (find d nm = None
   ↔ ∀ b, b ∈ carriers doc → nm ∉ names_of b (name_tag_of doc))
  ∧ (∀ b, find d nm = Some b →
          b ∈ carriers doc ∧ nm ∈ names_of b (name_tag_of doc)).
Proof.
  cbv zeta. rewrite find_open_file. split; [apply first_definer_None|].
  intros b Hb.
  destruct (first_definer_first _ _ _ _ Hb) as (before & after & E & Hin & _).
  split; [|done]. rewrite E. apply elem_of_app. right. left.
Qed.

(** *** The name and the version of the dictionary *)

Lemma last_assigned {X} (step : DDL → X → DDL) (get : DDL → string)
    (g : X → option string) :
  (∀ d x, get (step d x) = default (get d) (g x)) →
  ∀ xs d, get (foldl step d xs) = default (get d) (last (omap g xs)).
Proof.
  intros Hstep. induction xs as [|x xs IH]; intros d; [done|].
  cbn [foldl omap list_omap]. rewrite IH, Hstep.
  destruct (g x) as [y|]; [|reflexivity].
  rewrite last_cons. by destruct (last (omap g xs)).
Qed.

Lemma foldl_bind {A B C} (f : C → B → C) (g : A → list B) (xs : list A) : ∀ c,
  foldl (λ c' x, foldl f c' (g x)) c xs = foldl f c (xs ≫= g).
Proof.
  induction xs as [|x xs IH]; intros c; [done|].
  cbn [foldl]. by rewrite bind_cons, foldl_app, IH.
Qed.

Lemma omap_bind {A B C} (g : B → option C) (h : A → list B) (xs : list A) :
  omap g (xs ≫= h) = xs ≫= λ x, omap g (h x).
Proof.
  induction xs as [|x xs IH]; [done|].
  by rewrite !bind_cons, omap_app, IH.
Qed.

Lemma add_to_index_titles b name_tag d :
  dict_name_ (add_to_index b name_tag d) = dict_name_ d
  ∧ dict_version_ (add_to_index b name_tag d) = dict_version_ d.
Proof. by rewrite add_to_index_spec. Qed.

(** Property X11.  After [open_file] the name and the version of the
    dictionary are those assigned last in file order, and are left as
    they were when nothing assigns them: for DDL1 by the blocks called
    [on_this_dictionary], unquoted; for DDL2 by the items
    [_dictionary.title] and [_dictionary.version] of the blocks
    themselves, in their raw form. *)
Theorem dictionary_name_is_the_last_one_read doc d :
  let d' := open_file doc d in
  ((1 < length (blocks doc))%nat →
     dict_name_ d'
     = default (dict_name_ d)
         (last (ddl1_assigned "_dictionary_name" (blocks doc)))
     ∧ dict_version_ d'
       = default (dict_version_ d)
           (last (ddl1_assigned "_dictionary_version" (blocks doc))))
  ∧ ((length (blocks doc) ≤ 1)%nat →
     dict_name_ d'
     = default (dict_name_ d)
         (last (ddl2_assigned "_dictionary.title" (blocks doc)))
     ∧ dict_version_ d'
       = default (dict_version_ d)
           (last (ddl2_assigned "_dictionary.version" (blocks doc)))).
Proof.
  cbv zeta. unfold open_file. cbn [version_].
  destruct (decide (1 < length (blocks doc))%nat) as [Hgt|Hle];
    (split; intros Hlen; [try lia|try lia]).
  - rewrite !decide_True by done. unfold read_ddl1. cbn [ddl_].
    unfold ddl1_assigned. split.
    + rewrite (last_assigned read_ddl1_block dict_name_
                 (λ b, if decide (name b = "on_this_dictionary")
                       then as_string <$> find_value b "_dictionary_name"
                       else None)); [done|].
      intros d0 b. unfold read_ddl1_block.
      destruct (add_to_index_titles b "_name" d0) as [En Ev].
      destruct (decide (name b = "on_this_dictionary")); [|done].
      destruct (find_value b "_dictionary_name"),
        (find_value b "_dictionary_version"); cbn; by rewrite ?En, ?Ev.
    + rewrite (last_assigned read_ddl1_block dict_version_
                 (λ b, if decide (name b = "on_this_dictionary")
                       then as_string <$> find_value b "_dictionary_version"
                       else None)); [done|].
      intros d0 b. unfold read_ddl1_block.
      destruct (add_to_index_titles b "_name" d0) as [En Ev].
      destruct (decide (name b = "on_this_dictionary")); [|done].
      destruct (find_value b "_dictionary_name"),
        (find_value b "_dictionary_version"); cbn; by rewrite ?En, ?Ev.
  - rewrite !decide_False by done. unfold read_ddl2. cbn [ddl_].
    rewrite foldl_bind. unfold ddl2_assigned. rewrite <- !omap_bind. split.
    + rewrite (last_assigned read_ddl2_item dict_name_
                 (λ item, match item with
                          | Value t v =>
                              if decide (t = "_dictionary.title") then Some v
                              else None
                          | _ => None
                          end)); [done|].
      intros d0 [t v|tags values|f]; cbn [read_ddl2_item]; [|done|].
      * by repeat case_decide.
      * apply add_to_index_titles.
    + rewrite (last_assigned read_ddl2_item dict_version_
                 (λ item, match item with
                          | Value t v =>
                              if decide (t = "_dictionary.version") then Some v
                              else None
                          | _ => None
                          end)); [done|].
      intros d0 [t v|tags values|f]; cbn [read_ddl2_item]; [|done|].
      * repeat case_decide; subst; done.
      * apply add_to_index_titles.
Qed.

End Facts.
End IndexFacts.

(** ** The facts above on the sample inputs *)
Module SampleFacts.
Import Cif Grep Ddl Chunks Samples Subject.
Import SearchFacts TypeCheckFacts SubjectFacts.

Lemma sample_file_followable : Forall followable sample_file.
Proof.
  repeat (apply Forall_cons; split; [|]); try apply Forall_nil; try exact I.
  - split; [apply (bool_decide_unpack _); vm_compute; exact I|].
    vm_compute. discriminate.
  - split; [apply (bool_decide_unpack _); vm_compute; exact I|].
    vm_compute. discriminate.
Qed.

Lemma sample_file_countable : Forall countable sample_file.
Proof.
  repeat (apply Forall_cons; split; [|]); try apply Forall_nil; try exact I;
    vm_compute; discriminate.
Qed.

(** A loop that does not declare the tag searched for. *)
Lemma no_match_without_the_tag_witness :
  (@parse sample_lexicon
     (loop_productions ["_symmetry.id"; "_symmetry.op"] ["1"; "x,y,z"])
     (sample_parameters, [])).2 = [].
Proof.
  refine (proj1 (@no_match_without_the_tag sample_lexicon _ sample_parameters []
                   _ eq_refl eq_refl)).
  unfold loop_productions. cbn [fmap list_fmap app].
  repeat (apply Forall_cons_2; [by vm_compute|]). apply Forall_nil_2.
Defined.

Lemma working_parameters_rest_witness :
  at_rest (@parse sample_lexicon (file_productions sample_file)
             (sample_counting_at_rest, [])).1.
Proof.
  apply (@working_parameters_rest_between_pieces sample_lexicon).
  by vm_compute.
Defined.

Lemma search_prints_witness :
  (@parse sample_lexicon (file_productions sample_file) (sample_parameters, [])).2
  = ["1ABC:  X1" +:+ nl; "1ABC:  N1" +:+ nl; "1ABC:  CA" +:+ nl;
     "1ABC:  O1" +:+ nl; "global_:  G" +:+ nl].
Proof.
  exact (@search_prints_every_value_under_the_tag sample_lexicon sample_file
           sample_parameters [] eq_refl eq_refl eq_refl sample_file_followable).
Defined.

Lemma search_counts_witness :
  (@parse sample_lexicon (file_productions sample_file)
     (sample_counting_at_rest, [])).2
  = ["1ABC:  1" +:+ nl; "1ABC:  3" +:+ nl; "global_:  1" +:+ nl].
Proof.
  exact (@search_counts_every_value_under_the_tag sample_lexicon sample_file
           sample_counting_at_rest [] eq_refl
           (conj eq_refl (conj eq_refl eq_refl))
           sample_file_followable sample_file_countable).
Defined.

Lemma enumeration_failure_witness :
  @validate_enumeration sample_lexicon "hexagonal"
    ["triclinic"; "monoclinic"; "cubic"] (Some "")
  = (false, Some "'hexagonal' is not one of: triclinic, monoclinic, cubic.").
Proof.
  refine (@enumeration_failure_names_the_allowed_values sample_lexicon
            "hexagonal" ["triclinic"; "monoclinic"] "cubic" "" eq_refl _).
  apply (bool_decide_unpack _). vm_compute. exact I.
Defined.

Lemma range_is_ignored_witness :
  @TypeCheckDDL1.validate_value sample_lexicon
    (@TypeCheckDDL1.from_block sample_lexicon sample_char_with_range
       (@TypeCheckDDL1.default sample_indeterminate)) "9" (Some "")
  = (true, Some "").
Proof.
  refine (@range_is_ignored_unless_the_type_is_numb sample_lexicon
            sample_indeterminate sample_char_with_range "9" (Some "") _).
  discriminate.
Defined.

Lemma text_under_a_numb_type_witness :
  @TypeCheckDDL1.validate_value sample_lexicon
    (@TypeCheckDDL1.from_block sample_lexicon sample_cell_block
       (@TypeCheckDDL1.default sample_indeterminate)) "abc" (Some "")
  = (false, Some "expected number").
Proof.
  exact (@text_under_a_numb_type_is_rejected sample_lexicon sample_indeterminate
           sample_cell_block "abc" (Some "") eq_refl eq_refl eq_refl).
Defined.

Lemma range_without_colon_witness :
  TypeCheckDDL1.enumeration_
    (@TypeCheckDDL1.from_block sample_lexicon sample_range_without_colon
       (@TypeCheckDDL1.default sample_indeterminate)) = []
  ∧ @find_loop_in (items sample_range_without_colon) "_enumeration" = ["a"; "b"].
Proof.
  split; [|reflexivity].
  exact (proj1 (proj2 (@range_without_colon_drops_the_enumeration sample_lexicon
                         sample_indeterminate sample_range_without_colon "5"
                         eq_refl eq_refl))).
Defined.

Lemma unindexed_tags_witness :
  report (@validate sample_lexicon sample_indeterminate sample_ddl
            sample_foreign_subject None) = [].
Proof.
  refine (proj1 (@unindexed_tags_are_never_reported sample_lexicon
                   sample_indeterminate sample_ddl sample_foreign_subject None _)).
  apply (bool_decide_unpack _). vm_compute. exact I.
Defined.

Lemma ddl2_witness :
  report (@validate_scalar sample_lexicon sample_indeterminate sample_ddl2
            (mkDocument [sample_setting_block]) sample_setting_block
            sample_setting_item "_symmetry.cell_setting" "monoclinic" fresh)
  = [mkFailure sample_setting_block sample_setting_item
       "'monoclinic' is not one of: triclinic."].
Proof.
  refine (proj1 (@ddl2_checks_enumerations_only sample_lexicon
    sample_indeterminate sample_ddl2 _ _ _ "_symmetry.cell_setting" "monoclinic"
    sample_setting_frame fresh ["_symmetry.cell_setting"] [] 0%nat _ _ _)).
  - vm_compute. discriminate.
  - vm_compute. reflexivity.
  - reflexivity.
Defined.

Lemma column_row_by_row_witness :
  failure_message
    <$> report (@validate_column sample_lexicon sample_indeterminate sample_ddl
                  (mkDocument [sample_mixed_block]) sample_mixed_block
                  sample_mixed_loop
                  ["_cell_length_a"; "_atom_site_label"] ["5"; "C1"; "x"; "."]
                  fresh 0%nat)
  = ["_cell_length_a in list"; "expected number"].
Proof.
  refine (f_equal (fmap failure_message)
            (proj2 (@validate_checks_a_column_row_by_row sample_lexicon
                      sample_indeterminate sample_ddl _ _ _ _ _ fresh 0%nat 2%nat
                      _ _))).
  - vm_compute. lia.
  - reflexivity.
Defined.

Lemma search_prints_the_files_witness :
  (@grep_files sample_lexicon "_atom_site.label"
     [("1abc.cif", file_productions sample_file);
      ("2xyz.cif", file_productions [Pair "_atom_site.label" "Z"])]
     (set_unread 10 false false false
        (mkParameters "" 10 true true false false false false false
           "" "" false (-1) 0 0 0), [])).2
  = ["1abc.cif: 1ABC:  X1" +:+ nl; "1abc.cif: 1ABC:  N1" +:+ nl;
     "1abc.cif: 1ABC:  CA" +:+ nl; "1abc.cif: 1ABC:  O1" +:+ nl;
     "1abc.cif: global_:  G" +:+ nl; "2xyz.cif: global_:  Z" +:+ nl].
Proof.
  refine (@search_prints_the_files_in_order sample_lexicon "_atom_site.label"
            [("1abc.cif", sample_file);
             ("2xyz.cif", [Pair "_atom_site.label" "Z"])]
            (set_unread 10 false false false
               (mkParameters "" 10 true true false false false false false
                  "" "" false (-1) 0 0 0))
            [] eq_refl eq_refl eq_refl _).
  apply Forall_cons_2; [exact sample_file_followable|].
  apply Forall_cons_2; [|apply Forall_nil_2].
  apply Forall_cons_2; [exact I|apply Forall_nil_2].
Defined.

End SampleFacts.

(** * The programs run on sample inputs *)
Module Examples.
Import Cif Grep Ddl.

(** A scalar match, then the [global_] block. *)
Example search_scalar :
  @parse sample_lexicon
    [datablockname "1ABC"; tag "_atom_site.label"; value "'CA'"; str_global;
     tag "_atom_site.id"; value "7"]
    (sample_parameters, [])
  = (set_block_name "global_" sample_parameters, ["1ABC:  CA" +:+ nl]).
Proof. reflexivity. Qed.

(** The loop of five columns and three rows, in counting mode. *)
Example search_loop_counting :
  (@parse sample_lexicon (loop_productions sample_tags sample_values)
     (sample_counting, [])).2
  = ["1abc.cif: 1ABC:  3" +:+ nl].
Proof. vm_compute. reflexivity. Qed.

(** The sample dictionary is a DDL1 dictionary. *)
Example sample_ddl_members :
  (version_ sample_ddl, sep_ sample_ddl, dict_name_ sample_ddl,
   dict_version_ sample_ddl)
  = (1, "_", "cif_core.dic", "2.4").
Proof. vm_compute. reflexivity. Qed.

(** The messages reported for the sample file, and its unknown tags. *)
Example validate_sample_messages :
  failure_message
    <$> report (@validate sample_lexicon sample_indeterminate sample_ddl
                  sample_subject None)
  = ["value out of expected range: 7"; "_atom_site_label must be a list";
     "'hexagonal' is not one of: triclinic, monoclinic, cubic.";
     "_cell_length_a in list"; "expected number"].
Proof. vm_compute. reflexivity. Qed.

Example validate_sample_unknown_tags :
  unknown_tags (@validate sample_lexicon sample_indeterminate sample_ddl
                  sample_subject (Some []))
  = Some ["_cell_length_b"].
Proof. vm_compute. reflexivity. Qed.

(** The bounds of the range [1:5] are inclusive. *)
Example range_1_5 :
  (λ v, (@TypeCheckDDL1.validate_value sample_lexicon
           (@TypeCheckDDL1.from_block sample_lexicon sample_cell_block
              (@TypeCheckDDL1.default sample_indeterminate)) v None).1)
    <$> ["0"; "1"; "3"; "5"; "6"; "?"; "."; "abc"]
  = [false; true; true; true; false; true; true; false].
Proof. vm_compute. reflexivity. Qed.

(** A file that declares conformance to another dictionary. *)
Example audit_conform_other_dictionary :
  @check_audit_conform sample_lexicon sample_ddl
    (mkDocument
       [mkBlock "1ABC" [Value "_audit_conform_dict_name" "mmcif_pdbx.dic"]])
    (Some "")
  = (false, Some "Dictionary name mismatch: mmcif_pdbx.dic vs cif_core.dic").
Proof. vm_compute. reflexivity. Qed.

End Examples.
